(** * verify_metafiles: asset / metafile consistency check for a directory tree

    A shallow embedding of [verify_metafiles.py].  Python [str] values are
    lists of characters, [Set[Path]] is a finite set ([gset]), the directory
    tree the script walks is an inductive tree of entries, code that can
    raise returns a [result], and what the interpreter and the operating
    system decide (the clock, the order of a set, what standard output
    takes) is an environment [Env]. *)

From Stdlib Require Import ZArith Ascii String List DecimalString.
From stdpp Require Import base decidable countable list gmap strings.

Open Scope Z_scope.
Open Scope list_scope.

(** ** Python strings

    A string is held as its bytes in UTF-8; a byte of a file name that
    cannot be decoded stands for itself. The separator and the dot are
    single bytes, so names and suffixes split where they do on code
    points. *)

Abbreviation str := (list ascii).

(** A string literal. *)
Definition lit (s : string) : str := list_ascii_of_string s.

(** [s.rfind(c)]: the highest index at which [c] occurs in [s], or [-1]. *)
Fixpoint rfind (c : ascii) (s : str) : Z :=
  match s with
  | [] => -1
  | a :: s' =>
      let r := rfind c s' in
      if bool_decide (0 <= r) then r + 1
      else if bool_decide (a = c) then 0 else -1
  end.

(** [sep.join(xs)]. *)
Fixpoint join (sep : str) (xs : list str) : str :=
  match xs with
  | [] => []
  | [x] => x
  | x :: xs' => x ++ sep ++ join sep xs'
  end.

(** [s.startswith(c)] for a one-character prefix. *)
Definition startswith (c : ascii) (s : str) : bool :=
  match s with
  | a :: _ => bool_decide (a = c)
  | [] => false
  end.

(** ** Exceptions and results *)

Inductive exn :=
| ValueError
| PermissionError
| NotADirectoryError
| FileNotFoundError
| UnicodeEncodeError
| BrokenPipeError.

Inductive result (A : Type) :=
| Ok (a : A)
| Raise (e : exn).
Arguments Ok {A} a.
Arguments Raise {A} e.

Definition rbind {A B} (r : result A) (k : A → result B) : result B :=
  match r with
  | Ok a => k a
  | Raise e => Raise e
  end.

(** ** pathlib

    A pure POSIX path as pathlib keeps it: the anchor (drive and root,
    [""] or ["/"]) and the components after it.  Equality and hashing of
    [Path] objects compare exactly these, so structural equality of the
    record is path equality.  The methods follow CPython's [pathlib.py]
    (3.7 to 3.11). *)

Module pathlib.

Record Path := mkPath { anchor : str; parts : list str }.

Global Instance Path_eq_dec : EqDecision Path.
Proof. solve_decision. Defined.

Global Instance Path_countable : Countable Path.
Proof.
  apply (inj_countable' (λ p, (anchor p, parts p))
                        (λ t, mkPath t.1 t.2)).
  by intros [].
Defined.

(** The separator of the POSIX flavour. *)
Definition sep : ascii := "/"%char.

(** [p.name]: the final component, [''] when there is none. *)
Definition name (p : Path) : str := default [] (last (parts p)).

(** [p.suffix]:
    [i = name.rfind('.')], and [name[i:]] if [0 < i < len(name) - 1],
    else [''].  A leading dot or a trailing dot gives no suffix. *)
Definition suffix (p : Path) : str :=
  let name := name p in
  let i := rfind "." name in
  if bool_decide (0 < i < Z.of_nat (length name) - 1)
  then drop (Z.to_nat i) name
  else [].

(** The path with its final component replaced. *)
Definition replace_name (p : Path) (name : str) : Path :=
  mkPath (anchor p) (removelast (parts p) ++ [name]).

(** [p.with_suffix(suffix)]. It raises [ValueError] on a suffix that holds
    a separator, that is not empty and does not start with a dot, or that
    is a lone dot, and on a path with an empty name. *)
Definition with_suffix (p : Path) (suffix_ : str) : result Path :=
  if bool_decide (sep ∈ suffix_) then Raise ValueError
  else if (negb (bool_decide (suffix_ = [])) && negb (startswith "." suffix_))
          || bool_decide (suffix_ = ["."%char])
  then Raise ValueError
  else
    let name := name p in
    if bool_decide (name = []) then Raise ValueError
    else
      let old_suffix := suffix p in
      let name :=
        if bool_decide (old_suffix = []) then name ++ suffix_
        else take (length name - length old_suffix) name ++ suffix_ in
      Ok (replace_name p name).

(** The child [p / name] that [iterdir] yields for a directory entry. *)
Definition child (p : Path) (name : str) : Path :=
  mkPath (anchor p) (parts p ++ [name]).

(** [str(p)]. *)
Definition to_str (p : Path) : str :=
  match anchor p, parts p with
  | [], [] => ["."%char]
  | a, ps => a ++ join [sep] ps
  end.

End pathlib.
Import pathlib.

(** ** Consistency checks *)

Definition is_dangling_metafile (metafile : Path) (assets : gset Path)
  : result bool :=
  rbind (with_suffix metafile [])
        (λ p, Ok (bool_decide (p ∉ assets))).

Definition is_missing_metafile (asset : Path) (metafiles : gset Path)
  : result bool :=
  rbind (with_suffix asset (suffix asset ++ lit ".meta"))
        (λ p, Ok (bool_decide (p ∉ metafiles))).

(** ** The directory tree

    What the script sees of the file system below the root: every entry is a
    regular file, a directory with its entries (and whether it may be
    listed), or something else, for which both [is_file()] and [is_dir()]
    answer [False]: a path with nothing behind it ([missing]: a broken
    symbolic link, a path that does not exist) or a special file (a FIFO, a
    socket). *)

#[warnings="-register-all"]
Inductive node :=
| File
| Dir (listable : bool) (children : list (str * node))
| Other (missing : bool).

Definition is_dir (n : node) : bool :=
  match n with Dir _ _ => true | _ => false end.

Definition is_file (n : node) : bool :=
  match n with File => true | _ => false end.

(** [p.iterdir()] on a directory that can be listed: the child paths, each
    with the entry found there (what [is_dir()] and [is_file()] consult). *)
Definition iterdir (p : Path) (children : list (str * node))
  : list (Path * node) :=
  map (λ e, (child p e.1, e.2)) children.

(** ** Tree collector *)

Section find_elems.

Variable is_excluded_transverse : Path → node → bool.
Variable is_excluded_result_ : Path → node → bool.

(** [_find_elems_rec]. The [for] loop runs over the directory's entries and
    tests the traversal filter again for each, which visits exactly the
    elements of [paths] in order (lemma [_find_elems_rec_unfold]); written
    this way the recursive call is on a sub-tree. [p.iterdir()] raises
    [PermissionError] on a directory that may not be listed,
    [FileNotFoundError] where nothing is, and [NotADirectoryError] on a file.
    The depth of the recursion is not bounded here; the interpreter's limit
    on it is outside this model. *)
Fixpoint _find_elems_rec (p : Path) (n : node) (acc : gset Path) {struct n}
  : result (gset Path) :=
  match n with
  | Dir true children =>
      let paths :=
        List.filter (λ pc, negb (is_excluded_transverse pc.1 pc.2))
                    (iterdir p children) in
      let acc :=
        acc ∪ list_to_set
                (List.filter (λ pc, negb (is_excluded_result_ pc.1 pc.2))
                             paths).*1 in
      (fix loop (cs : list (str * node)) (acc : gset Path) {struct cs}
         : result (gset Path) :=
         match cs with
         | [] => Ok acc
         | e :: cs' =>
             if negb (is_excluded_transverse (child p e.1) e.2) && is_dir e.2
             then rbind (_find_elems_rec (child p e.1) e.2 acc) (loop cs')
             else loop cs' acc
         end) children acc
  | Dir false _ => Raise PermissionError
  | Other true => Raise FileNotFoundError
  | _ => Raise NotADirectoryError
  end.

End find_elems.

Definition _find_elems (root : Path) (tree : node)
    (is_excluded_transverse : Path → node → bool)
    (is_excluded_result : option (Path → node → bool))
  : result (gset Path) :=
  let is_excluded_result_ :=
    match is_excluded_result with
    | None => λ _ _, false
    | Some f => f
    end in
  _find_elems_rec is_excluded_transverse is_excluded_result_ root tree ∅.

(** [_is_excluded] of [gather_metafile_paths]. *)
Definition metafile_is_excluded (excluded_dirs : gset str)
    (p : Path) (n : node) : bool :=
  if is_file n then bool_decide (suffix p ≠ lit ".meta")
  else bool_decide (name p ∈ excluded_dirs).

Definition _is_not_metafile (p : Path) (n : node) : bool := is_dir n.

Definition gather_metafile_paths (root : Path) (tree : node)
    (excluded_dirs : gset str) : result (gset Path) :=
  _find_elems root tree (metafile_is_excluded excluded_dirs)
              (Some _is_not_metafile).

(** [_is_excluded] of [gather_asset_paths]. *)
Definition asset_is_excluded (excluded_files excluded_directories : gset str)
    (p : Path) (n : node) : bool :=
  let filter := if is_dir n then excluded_directories else excluded_files in
  bool_decide (name p ∈ filter) || bool_decide (suffix p = lit ".meta").

Definition gather_asset_paths (root : Path) (tree : node)
    (excluded_files excluded_directories : gset str) : result (gset Path) :=
  _find_elems root tree
              (asset_is_excluded excluded_files excluded_directories) None.

(** ** Standard output, the clock and exceptions

    The script prints lines, reads the wall clock and iterates over sets.
    What the interpreter and the operating system decide is the
    environment of a run: [clock k] is what the [k]-th call of
    [datetime.now()] returns, in microseconds; [set_order s] is the order
    in which a [for] loop meets the elements of the set [s];
    [stdout_error printed line] is the exception that [print(line)]
    raises, if any, once the lines [printed] are written (the line cannot
    be encoded, the pipe is closed); [flush_fails printed] tells whether
    the interpreter, as it shuts down, fails to flush standard output
    with the lines [printed] written to it; and [duration_repr us] is
    [str(delta / timedelta(milliseconds=1))] for a difference of [us]
    microseconds, the [repr] of a float. *)

Record Env := mkEnv {
  clock : nat → Z;
  set_order : gset Path → list Path;
  stdout_error : list str → str → option exn;
  flush_fails : list str → bool;
  duration_repr : Z → str
}.

(** A set is iterated once over each of its elements, in some order. *)
Definition order_ok (env : Env) : Prop :=
  ∀ s, set_order env s ≡ₚ elements s.

(** The world holds the lines printed so far, one for each call of [print]
    that returned, and how many times the clock was read.  An action returns
    the new world and a value or the exception it raised. *)
Record World := mkWorld { stdout : list str; clock_reads : nat }.

Definition IO (A : Type) : Type := World → World * result A.

Definition ret {A} (a : A) : IO A := λ w, (w, Ok a).

Definition bind {A B} (m : IO A) (k : A → IO B) : IO B :=
  λ w, match m w with
       | (w', Ok a) => k a w'
       | (w', Raise e) => (w', Raise e)
       end.

Global Instance IO_ret : MRet IO := @ret.
Global Instance IO_bind : MBind IO := λ A B k m, bind m k.

(** A pure computation that may raise, run as an action. *)
Definition lift {A} (r : result A) : IO A := λ w, (w, r).

(** [print(line)]: the line is written, or the write raises and nothing of
    the line is. *)
Definition print (env : Env) (line : str) : IO unit :=
  λ w, match stdout_error env (stdout w) line with
       | None => (mkWorld (stdout w ++ [line]) (clock_reads w), Ok tt)
       | Some e => (w, Raise e)
       end.

(** [datetime.now()]. *)
Definition datetime_now (env : Env) : IO Z :=
  λ w, (mkWorld (stdout w) (S (clock_reads w)),
        Ok (clock env (clock_reads w))).

(** [with cm as x: body], for a context manager whose [__exit__] returns
    [None]: [__exit__] runs however the body ends, and an exception of the
    body is raised again after it. *)
Definition with_cm {T A} (enter : IO T) (exit : IO unit) (body : T → IO A)
  : IO A :=
  λ w, match enter w with
       | (w1, Raise e) => (w1, Raise e)
       | (w1, Ok x) =>
           let '(w2, r) := body x w1 in
           match exit w2 with
           | (w3, Ok _) => (w3, r)
           | (w3, Raise e) => (w3, Raise e)
           end
       end.

(** [for x in xs: body(x)]. *)
Fixpoint for_each {T} (xs : list T) (body : T → IO unit) : IO unit :=
  match xs with
  | [] => ret tt
  | x :: xs' => body x ;; for_each xs' body
  end.

(** ** Event reporter *)

Record TeamCityMsg := mkMsg { text : str; properties : list (str * str) }.

(** [TeamCityMsg._msg]; [properties] keeps the dict's insertion order. *)
Definition _msg (m : TeamCityMsg) : str :=
  let props :=
    map (λ kv, kv.1 ++ lit "='" ++ kv.2 ++ lit "'") (properties m) in
  let content := join (lit " ") ([text m] ++ props) in
  lit "##teamcity[" ++ content ++ lit "]".

Definition publish (env : Env) (m : TeamCityMsg) : IO unit :=
  print env (_msg m).

(** ** Scoped reporting contexts *)

Module TestSuite.

Record t := mk { name : str }.

Definition __enter__ (env : Env) (self : t) : IO t :=
  publish env (mkMsg (lit "testSuiteStarted") [(lit "name", name self)]) ;;
  ret self.

Definition __exit__ (env : Env) (self : t) : IO unit :=
  publish env (mkMsg (lit "testSuiteFinished") [(lit "name", name self)]).

(** [@TestSuite(name=...)] on a function: [ContextDecorator] runs the
    function inside [with self:]. *)
Definition decorate {A} (env : Env) (self : t) (f : IO A) : IO A :=
  with_cm (__enter__ env self) (__exit__ env self) (λ _, f).

End TestSuite.

(** The [repr] of the float [us / 1000] for [|us| < 10^15]: there it is the
    exact decimal with the trailing zeros of the fraction dropped and at
    least one fractional digit kept. It serves as [duration_repr] in the
    example environments, whose durations are a few seconds. *)
Definition digit (d : Z) : ascii := ascii_of_nat (48 + Z.to_nat d).

Definition decimal (n : Z) : str :=
  lit (NilZero.string_of_uint (N.to_uint (Z.to_N n))).

Definition fraction (r : Z) : str :=
  let d1 := r / 100 in
  let d2 := (r / 10) mod 10 in
  let d3 := r mod 10 in
  if bool_decide (d3 ≠ 0) then [digit d1; digit d2; digit d3]
  else if bool_decide (d2 ≠ 0) then [digit d1; digit d2]
  else [digit d1].

Definition str_milliseconds (us : Z) : str :=
  let a := Z.abs us in
  (if bool_decide (us < 0) then lit "-" else [])
    ++ decimal (a / 1000) ++ lit "." ++ fraction (a mod 1000).

Module Test.

Record t := mk { name : str; _start_time : Z }.

(** [Test(name=...)]. The default of [_start_time] is the value the class
    body computed, [class_start_time]; the constructor reads no clock. *)
Definition new (class_start_time : Z) (name : str) : t :=
  mk name class_start_time.

Definition __enter__ (env : Env) (self : t) : IO t :=
  publish env (mkMsg (lit "testStarted")
                     [(lit "name", name self);
                      (lit "captureStandardOutput", lit "false")]) ;;
  ret self.

Definition __exit__ (env : Env) (self : t) : IO unit :=
  now ← datetime_now env ;
  publish env (mkMsg (lit "testFinished")
                     [(lit "name", name self);
                      (lit "duration",
                       duration_repr env (now - _start_time self))]).

Definition fail (env : Env) (self : t) (message details : str) : IO unit :=
  publish env (mkMsg (lit "testFailed")
                     [(lit "name", name self);
                      (lit "message", message);
                      (lit "details", details)]).

Definition ignore (env : Env) (self : t) (comment : str) : IO unit :=
  publish env (mkMsg (lit "testIgnored")
                     [(lit "name", name self); (lit "message", comment)]).

(** [with Test(name=...) as test: body]. *)
Definition scope {A} (env : Env) (self : t) (body : t → IO A) : IO A :=
  with_cm (__enter__ env self) (__exit__ env self) body.

End Test.

(** ** Verification runners *)

Section runners.

Variable env : Env.
Variable class_start_time : Z.

(** The body of the loop of [verify_missing_metafiles]. *)
Definition missing_body (metafiles : gset Path) (asset_path : Path) : IO unit :=
  Test.scope env (Test.new class_start_time (to_str asset_path))
    (λ test,
       b ← lift (is_missing_metafile asset_path metafiles) ;
       if b : bool
       then Test.fail env test (lit "No .metafile")
              (lit "Metafile " ++ to_str asset_path ++ lit ".meta not found.")
       else ret tt).

Definition verify_missing_metafiles (assets metafiles : gset Path) : IO unit :=
  TestSuite.decorate env (TestSuite.mk (lit "missing_metafiles"))
    (for_each (set_order env assets) (missing_body metafiles)).

(** The body of the loop of [verify_dangling_metafiles]. *)
Definition dangling_body (assets : gset Path) (metafile_path : Path) : IO unit :=
  Test.scope env (Test.new class_start_time (to_str metafile_path))
    (λ test,
       b ← lift (is_dangling_metafile metafile_path assets) ;
       if b : bool
       then Test.fail env test (lit "No asset")
              (lit "No file corresponding with " ++ to_str metafile_path
                 ++ lit ".")
       else ret tt).

Definition verify_dangling_metafiles (assets metafiles : gset Path) : IO unit :=
  TestSuite.decorate env (TestSuite.mk (lit "dangling_metafiles"))
    (for_each (set_order env metafiles) (dangling_body assets)).

(** The [if __name__ == "__main__":] block, after argument parsing. *)
Definition main (root : Path) (tree : node)
    (excluded_files excluded_dirs : gset str) : IO unit :=
  assets ← lift (gather_asset_paths root tree excluded_files excluded_dirs) ;
  metafiles ← lift (gather_metafile_paths root tree excluded_dirs) ;
  verify_missing_metafiles assets metafiles ;;
  verify_dangling_metafiles assets metafiles.

End runners.

Definition _retrieve_excluded_args (elems : option (list str)) : gset str :=
  match elems with
  | Some l => list_to_set l
  | None => ∅
  end.

(** The script from its first line: the body of [class Test] reads the
    clock once for the default of [_start_time], then the main block runs. *)
Definition script (env : Env) (root : Path) (tree : node)
    (excluded_files excluded_dirs : gset str) : IO unit :=
  class_start_time ← datetime_now env ;
  main env class_start_time root tree excluded_files excluded_dirs.

Definition initial_world : World := mkWorld [] 0.

(** The exit status of the process: 120 when the interpreter cannot flush
    standard output as it shuts down; otherwise 0 when the script runs to
    its end and 1 when an exception leaves it. *)
Definition exit_status {A} (env : Env) (out : World * result A) : Z :=
  if flush_fails env (stdout out.1) then 120
  else match out.2 with
       | Ok _ => 0
       | Raise _ => 1
       end.

Definition run (env : Env) (root : Path) (tree : node)
    (excluded_files excluded_dirs : gset str) : World * result unit :=
  script env root tree excluded_files excluded_dirs initial_world.

(** ** Standard output in UTF-8

    The usual standard output encodes in UTF-8 and is strict. A file name
    reaches the script decoded from the bytes the file system holds; bytes
    that are not valid UTF-8 give a string that cannot be encoded again,
    and [print] raises [UnicodeEncodeError] on a line that holds one. *)

Definition in_range (lo hi : nat) (c : ascii) : bool :=
  (lo <=? nat_of_ascii c)%nat && (nat_of_ascii c <=? hi)%nat.

Definition is_continuation (c : ascii) : bool := in_range 128 191 c.

(** The bytes are well-formed UTF-8. *)
Fixpoint utf8_valid (s : str) : bool :=
  match s with
  | [] => true
  | b :: s1 =>
      if in_range 0 127 b then utf8_valid s1
      else if in_range 194 223 b then
        match s1 with
        | c1 :: s2 => is_continuation c1 && utf8_valid s2
        | _ => false
        end
      else if in_range 224 239 b then
        match s1 with
        | c1 :: c2 :: s3 =>
            (if in_range 224 224 b then in_range 160 191 c1
             else if in_range 237 237 b then in_range 128 159 c1
             else is_continuation c1)
            && is_continuation c2 && utf8_valid s3
        | _ => false
        end
      else if in_range 240 244 b then
        match s1 with
        | c1 :: c2 :: c3 :: s4 =>
            (if in_range 240 240 b then in_range 144 191 c1
             else if in_range 244 244 b then in_range 128 143 c1
             else is_continuation c1)
            && is_continuation c2 && is_continuation c3 && utf8_valid s4
        | _ => false
        end
      else false
  end.

Definition utf8_stdout (printed : list str) (line : str) : option exn :=
  if utf8_valid line then None else Some UnicodeEncodeError.

(** ** Reading an event line back

    The consuming harness reads [##teamcity[name key='value' ...]]: the event
    name runs up to the first space or closing bracket, each key up to its
    [=], and each value from the quote after it up to the next quote. *)

Fixpoint strip_prefix (pre s : str) : option str :=
  match pre, s with
  | [], _ => Some s
  | a :: pre', b :: s' => if bool_decide (a = b) then strip_prefix pre' s' else None
  | _ :: _, [] => None
  end.

(** The text before the first [c], and the text after it. *)
Fixpoint split_at (c : ascii) (s : str) : option (str * str) :=
  match s with
  | [] => None
  | a :: s' =>
      if bool_decide (a = c) then Some ([], s')
      else match split_at c s' with
           | Some (l, r) => Some (a :: l, r)
           | None => None
           end
  end.

(** The longest prefix free of spaces and closing brackets, and the rest. *)
Fixpoint read_name (s : str) : str * str :=
  match s with
  | [] => ([], [])
  | a :: s' =>
      if bool_decide (a = " "%char ∨ a = "]"%char) then ([], s)
      else let '(l, r) := read_name s' in (a :: l, r)
  end.

Fixpoint read_props (fuel : nat) (s : str) : option (list (str * str)) :=
  match fuel with
  | O => None
  | S fuel' =>
      match s with
      | ["]"%char] => Some []
      | " "%char :: s1 =>
          match split_at "=" s1 with
          | Some (k, "'"%char :: s2) =>
              match split_at "'" s2 with
              | Some (v, s3) =>
                  match read_props fuel' s3 with
                  | Some kvs => Some ((k, v) :: kvs)
                  | None => None
                  end
              | None => None
              end
          | _ => None
          end
      | _ => None
      end
  end.

Definition parse_msg (line : str) : option TeamCityMsg :=
  match strip_prefix (lit "##teamcity[") line with
  | Some s =>
      let '(name, rest) := read_name s in
      match read_props (length rest) rest with
      | Some kvs => Some (mkMsg name kvs)
      | None => None
      end
  | None => None
  end.

(** Characters with a meaning in the line syntax: the quote, the escape
    character, the brackets and the line breaks. *)
Definition structural (c : ascii) : bool :=
  bool_decide (c ∈ [ "'"%char; "|"%char; "["%char; "]"%char;
                     "010"%char; "013"%char ]).

(** A value with no structural character. *)
Definition plain_value (v : str) : bool := forallb (λ c, negb (structural c)) v.

(** An event name or key: no structural character, space or equals sign. *)
Definition plain_word (s : str) : bool :=
  forallb (λ c, negb (structural c) && negb (bool_decide (c = " "%char))
                && negb (bool_decide (c = "="%char))) s.

Definition plain_msg (m : TeamCityMsg) : bool :=
  plain_word (text m)
  && forallb (λ kv, plain_word kv.1 && plain_value kv.2) (properties m).

(** ** Vocabulary of the specification *)

(** The correspondence rule: the expected metafile of a path. *)
Definition append_meta (p : Path) : Path :=
  replace_name p (name p ++ lit ".meta").

(** The path [ns] components below [p]. *)
Definition descend (p : Path) (ns : list str) : Path :=
  mkPath (anchor p) (parts p ++ ns).

Definition lookup_child (nm : str) (cs : list (str * node)) : option node :=
  match List.find (λ e, bool_decide (e.1 = nm)) cs with
  | Some e => Some e.2
  | None => None
  end.

(** The entry found by following the names [ns] down from [n]. *)
Fixpoint resolve (n : node) (ns : list str) : option node :=
  match ns with
  | [] => Some n
  | nm :: ns' =>
      match n with
      | Dir _ cs =>
          match lookup_child nm cs with
          | Some c => resolve c ns'
          | None => None
          end
      | _ => None
      end
  end.

(** The entry found by following [ns] down from the directory [n] at [p]
    when no entry on the way, the last one included, is excluded by [excl]. *)
Fixpoint walk_to (excl : Path → node → bool) (p : Path) (n : node)
    (ns : list str) : option node :=
  match ns with
  | [] => Some n
  | nm :: ns' =>
      match n with
      | Dir _ cs =>
          match lookup_child nm cs with
          | Some c =>
              if excl (child p nm) c then None
              else walk_to excl (child p nm) c ns'
          | None => None
          end
      | _ => None
      end
  end.

(** A file system gives the entries of one directory distinct names. *)
Fixpoint distinct_names (n : node) : bool :=
  match n with
  | Dir _ cs =>
      bool_decide (NoDup cs.*1) && forallb (λ e, distinct_names e.2) cs
  | _ => true
  end.

(** A file name is not empty and holds no separator. *)
Definition valid_name (s : str) : bool :=
  negb (bool_decide (s = [])) && negb (bool_decide (sep ∈ s)).

Fixpoint valid_names (n : node) : bool :=
  match n with
  | Dir _ cs => forallb (λ e, valid_name e.1 && valid_names e.2) cs
  | _ => true
  end.

(** Every entry is a regular file or a directory. *)
Fixpoint regular (n : node) : bool :=
  match n with
  | File => true
  | Dir _ cs => forallb (λ e, regular e.2) cs
  | Other _ => false
  end.

(** A loop that threads an accumulator through a body that may raise. *)
Fixpoint fold_result {A B} (f : B → A → result B) (xs : list A) (acc : B)
  : result B :=
  match xs with
  | [] => Ok acc
  | x :: xs' => rbind (f acc x) (fold_result f xs')
  end.

(** The entries a traversal from the directory [n] at [p] lists and keeps:
    [listed excl p n ns m] when [m] is found [ns] below [n], no entry on the
    way, [m] included, is excluded by [excl], and all but [m] are
    directories. *)
Inductive listed (excl : Path → node → bool)
  : Path → node → list str → node → Prop :=
| listed_child p l cs nm c :
    (nm, c) ∈ cs → excl (child p nm) c = false →
    listed excl p (Dir l cs) [nm] c
| listed_below p l cs nm c ns m :
    (nm, c) ∈ cs → excl (child p nm) c = false → is_dir c = true →
    listed excl (child p nm) c ns m →
    listed excl p (Dir l cs) (nm :: ns) m.

(** The part of an event line after the event name. *)
Definition props_tail (kvs : list (str * str)) : str :=
  concat (map (λ kv, " "%char :: kv.1 ++ "="%char :: "'"%char :: kv.2
                       ++ ["'"%char]) kvs) ++ ["]"%char].

(** ** Example inputs *)

Definition root_dir : Path := mkPath [] [lit "root"].

(** A source file with its metafile, and an excluded build directory. *)
Definition tree_build : node :=
  Dir true [(lit "build", Dir true [(lit "d.txt", File);
                                    (lit "d.txt.meta", File)]);
            (lit "a.txt", File)].

Definition tree_sub : node :=
  Dir true [(lit "sub", Dir true [(lit "a.txt", File)]);
            (lit "a.txt.meta", File)].

Definition tree_empty_dir : node := Dir true [(lit "sub", Dir true [])].

(** A broken symbolic link. *)
Definition tree_broken_link : node := Dir true [(lit "lnk", Other true)].

Definition tree_pair : node :=
  Dir true [(lit "a.txt", File); (lit "a.txt.meta", File)].

(** An asset without metafile and a metafile without asset. *)
Definition tree_failures : node :=
  Dir true [(lit "b.txt", File); (lit "c.txt.meta", File)].

(** A directory that may not be listed. *)
Definition tree_locked : node :=
  Dir true [(lit "a.txt", File); (lit "private", Dir false [])].

Definition tree_dot_meta : node :=
  Dir true [(lit "sub", Dir true [(lit ".meta", File)])].

Definition tree_meta_dir : node :=
  Dir true [(lit "d.meta", Dir true [(lit ".meta", File)])].

(** A clock that advances 1.5 ms between two readings. *)
Definition clock_steady (k : nat) : Z := Z.of_nat k * 1500.

(** The class is defined at time 0; the first test of the run finishes
    5000 ms later and the second 2 ms after the first. *)
Definition clock_late (k : nat) : Z :=
  match k with
  | 0%nat => 0
  | 1%nat => 5000000
  | _ => 5002000
  end.

(** The usual environment: sets iterated in the order of [elements],
    standard output in UTF-8 and flushed at the end, durations of a few
    seconds. *)
Definition env_steady : Env :=
  mkEnv clock_steady elements utf8_stdout (λ _, false) str_milliseconds.

Definition env_late : Env :=
  mkEnv clock_late elements utf8_stdout (λ _, false) str_milliseconds.

(** The same with standard output on a device that is full: the lines
    are buffered, and lost when the interpreter flushes them. *)
Definition env_full : Env :=
  mkEnv clock_steady elements utf8_stdout
        (λ printed, negb (bool_decide (printed = []))) str_milliseconds.

(** A file whose name is the byte 255 followed by [.txt]: not UTF-8. *)
Definition tree_undecodable : node :=
  Dir true [(ascii_of_nat 255 :: lit ".txt", File)].

(** A root directory that is itself named [build]. *)
Definition root_build : Path := mkPath [] [lit "build"].

Definition tree_single : node := Dir true [(lit "a.txt", File)].

Definition msg_failed : TeamCityMsg :=
  mkMsg (lit "testFailed")
        [(lit "name", lit "root/b.txt");
         (lit "message", lit "No .metafile");
         (lit "details", lit "Metafile root/b.txt.meta not found.")].

Definition msg_quote : TeamCityMsg :=
  mkMsg (lit "testStarted") [(lit "name", lit "a' b='c")].

Definition msg_two_props : TeamCityMsg :=
  mkMsg (lit "testStarted") [(lit "name", lit "a"); (lit "b", lit "c")].

(** ** Further vocabulary *)

(** Every directory the traversal enters can be listed: the directory
    itself, and below it every directory that [excl] does not exclude. *)
Fixpoint traversable (excl : Path → node → bool) (p : Path) (n : node)
  : bool :=
  match n with
  | Dir l cs =>
      l && forallb (λ e, excl (child p e.1) e.2 || negb (is_dir e.2)
                         || traversable excl (child p e.1) e.2) cs
  | _ => false
  end.

(** The same tree with the entries of some directories in another order. *)
Inductive reordered : node → node → Prop :=
| reordered_refl n : reordered n n
| reordered_here l cs cs' :
    cs ≡ₚ cs' → reordered (Dir l cs) (Dir l cs')
| reordered_below l cs1 nm c c' cs2 :
    reordered c c' →
    reordered (Dir l (cs1 ++ (nm, c) :: cs2)) (Dir l (cs1 ++ (nm, c') :: cs2))
| reordered_trans n1 n2 n3 :
    reordered n1 n2 → reordered n2 n3 → reordered n1 n3.

(** The path [is_dangling_metafile] looks up: the name without its suffix,
    whatever the suffix is. *)
Definition expected_asset (m : Path) : Path :=
  replace_name m (take (length (name m) - length (suffix m)) (name m)).

Definition tree_reordered : node :=
  Dir true [(lit "a.txt", File);
            (lit "build", Dir true [(lit "d.txt.meta", File);
                                    (lit "d.txt", File)])].

(** The entries [cs] with [f] applied to the first entry named [nm]. *)
Fixpoint replace_child (nm : str) (f : node → node) (cs : list (str * node))
  : list (str * node) :=
  match cs with
  | [] => []
  | e :: cs' =>
      if bool_decide (e.1 = nm) then (e.1, f e.2) :: cs'
      else e :: replace_child nm f cs'
  end.

(** The tree [n] with [n'] in the place of the entry found [ns] below. *)
Fixpoint replace_at (n : node) (ns : list str) (n' : node) : node :=
  match ns with
  | [] => n'
  | nm :: ns' =>
      match n with
      | Dir l cs => Dir l (replace_child nm (λ c, replace_at c ns' n') cs)
      | _ => n
      end
  end.

(** ** The events of a run

    An event is what one call of [print] writes. *)

Definition suite_started_line (nm : str) : str :=
  _msg (mkMsg (lit "testSuiteStarted") [(lit "name", nm)]).

Definition suite_finished_line (nm : str) : str :=
  _msg (mkMsg (lit "testSuiteFinished") [(lit "name", nm)]).

Definition started_line (nm : str) : str :=
  _msg (mkMsg (lit "testStarted")
              [(lit "name", nm); (lit "captureStandardOutput", lit "false")]).

Definition failed_line (nm message details : str) : str :=
  _msg (mkMsg (lit "testFailed")
              [(lit "name", nm); (lit "message", message);
               (lit "details", details)]).

(** The event of a test that finishes [us] microseconds after the start
    time it holds. *)
Definition finished_line (env : Env) (nm : str) (us : Z) : str :=
  _msg (mkMsg (lit "testFinished")
              [(lit "name", nm); (lit "duration", duration_repr env us)]).

(** The events of one test that ends normally at the clock reading [k]. *)
Definition test_events (env : Env) (t0 : Z) (k : nat) (nm : str)
    (failure : option (str * str)) : list str :=
  [started_line nm]
    ++ match failure with
       | Some (message, details) => [failed_line nm message details]
       | None => []
       end
    ++ [finished_line env nm (clock env k - t0)].

(** The events of the tests of a suite, the first ending at reading [k]. *)
Fixpoint suite_events (env : Env) (t0 : Z)
    (failure : Path → option (str * str)) (k : nat) (ps : list Path)
  : list str :=
  match ps with
  | [] => []
  | p :: ps' =>
      test_events env t0 k (to_str p) (failure p)
        ++ suite_events env t0 failure (S k) ps'
  end.

Definition missing_failure (metafiles : gset Path) (p : Path)
  : option (str * str) :=
  if bool_decide (append_meta p ∉ metafiles)
  then Some (lit "No .metafile",
             lit "Metafile " ++ to_str p ++ lit ".meta not found.")
  else None.

Definition dangling_failure (assets : gset Path) (m : Path)
  : option (str * str) :=
  if bool_decide (expected_asset m ∉ assets)
  then Some (lit "No asset",
             lit "No file corresponding with " ++ to_str m ++ lit ".")
  else None.

(** The events of a run over the two collected sets, each set in the order
    the environment iterates it. *)
Definition run_stream (env : Env) (A M : gset Path) : list str :=
  [suite_started_line (lit "missing_metafiles")]
    ++ suite_events env (clock env 0%nat) (missing_failure M) 1
         (set_order env A)
    ++ [suite_finished_line (lit "missing_metafiles")]
    ++ [suite_started_line (lit "dangling_metafiles")]
    ++ suite_events env (clock env 0%nat) (dangling_failure A)
         (1 + size A) (set_order env M)
    ++ [suite_finished_line (lit "dangling_metafiles")].

(** Standard output, with [printed] written, takes the lines one after
    the other. *)
Fixpoint accepts (env : Env) (printed lines : list str) : bool :=
  match lines with
  | [] => true
  | line :: lines' =>
      match stdout_error env printed line with
      | None => accepts env (printed ++ [line]) lines'
      | Some _ => false
      end
  end.

(** What the action [m] does from the world [w], given the lines it is to
    print and the number of clock readings it is to take: when standard
    output takes the lines, they are printed and [a] is returned; when it
    refuses one, an exception leaves [m]. *)
Definition writes {A} (env : Env) (m : IO A) (w : World)
    (lines : list str) (n : nat) (a : A) : Prop :=
  if accepts env (stdout w) lines
  then m w = (mkWorld (stdout w ++ lines) (clock_reads w + n), Ok a)
  else ∃ w' e, m w = (w', Raise e).

(** An event that reports a failed test: what a call of [Test.fail]
    prints. *)
Definition is_failed_event (line : str) : bool :=
  match strip_prefix (lit "##teamcity[testFailed ") line with
  | Some _ => true
  | None => false
  end.

(** * Properties *)

(** ** Strings and paths *)

Lemma rfind_bounds c s : -1 ≤ rfind c s < Z.of_nat (length s).
Proof.
  induction s as [|a s IH]; simpl; [lia|].
  repeat case_bool_decide; lia.
Qed.

Lemma rfind_app c s t : c ∈ t → rfind c (s ++ t) = Z.of_nat (length s) + rfind c t.
Proof.
  intros Hin. induction s as [|a s IH]; simpl; [lia|].
  rewrite IH. pose proof (rfind_bounds c t).
  destruct (decide (0 ≤ rfind c t)) as [Hr|Hr].
  - case_bool_decide; lia.
  - exfalso. apply Hr. clear -Hin.
    induction Hin as [x l|x y l Hin IH]; simpl.
    + pose proof (rfind_bounds x l). repeat case_bool_decide; try lia; congruence.
    + case_bool_decide; lia.
Qed.

Lemma rfind_lookup c s : 0 ≤ rfind c s → s !! Z.to_nat (rfind c s) = Some c.
Proof.
  induction s as [|a s IH]; simpl; [lia|].
  pose proof (rfind_bounds c s).
  repeat case_bool_decide; try lia; intros _.
  - replace (Z.to_nat (rfind c s + 1)) with (S (Z.to_nat (rfind c s))) by lia.
    simpl. auto.
  - simpl. congruence.
Qed.

Lemma rfind_dot_meta stem : rfind "." (stem ++ lit ".meta") = Z.of_nat (length stem).
Proof.
  rewrite rfind_app.
  - change (rfind "." (lit ".meta")) with 0. lia.
  - apply list_elem_of_here.
Qed.

(** A suffix is empty, or it is a tail of the name that starts with a dot
    and leaves a stem that is not empty. *)
Lemma suffix_cases p :
  suffix p = [] ∨
  ∃ stem rest, stem ≠ [] ∧ name p = stem ++ suffix p
               ∧ suffix p = "."%char :: rest ∧ rest ≠ [].
Proof.
  unfold suffix. cbv zeta. case_bool_decide as Hi; [right|by left].
  set (i := rfind "." (name p)) in *.
  assert (Hl : name p !! Z.to_nat i = Some "."%char)
    by (apply rfind_lookup; lia).
  exists (take (Z.to_nat i) (name p)), (drop (S (Z.to_nat i)) (name p)).
  split_and!.
  - intros Ht. apply (f_equal length) in Ht. rewrite length_take in Ht.
    simpl in Ht. lia.
  - by rewrite take_drop.
  - by apply drop_S.
  - intros Hd. apply (f_equal length) in Hd. rewrite length_drop in Hd.
    simpl in Hd. lia.
Qed.

Lemma suffix_of_meta_name p stem :
  stem ≠ [] → name p = stem ++ lit ".meta" → suffix p = lit ".meta".
Proof.
  intros Hne Hn. unfold suffix. cbv zeta. rewrite Hn, rfind_dot_meta.
  assert (0 < length stem)%nat by (destruct stem; [done|simpl; lia]).
  rewrite length_app. change (length (lit ".meta")) with 5%nat.
  rewrite bool_decide_true by lia.
  rewrite Nat2Z.id. by rewrite drop_app_length.
Qed.

Lemma suffix_meta_inv p :
  suffix p = lit ".meta" → ∃ stem, stem ≠ [] ∧ name p = stem ++ lit ".meta".
Proof.
  intros Hs. destruct (suffix_cases p) as [He|(stem & rest & Hne & Hn & _)].
  - rewrite He in Hs. discriminate.
  - exists stem. by rewrite <- Hs.
Qed.

Lemma replace_name_name p s : name (replace_name p s) = s.
Proof. unfold name, replace_name. simpl. by rewrite last_snoc. Qed.

Lemma replace_name_twice p s s' :
  replace_name (replace_name p s) s' = replace_name p s'.
Proof.
  unfold replace_name. simpl. by rewrite removelast_last.
Qed.

Lemma replace_name_self p : name p ≠ [] → replace_name p (name p) = p.
Proof.
  destruct p as [a ps]. unfold name, replace_name. simpl. intros Hn.
  f_equal. destruct ps as [|x ps _] using rev_ind; [done|].
  by rewrite removelast_last, last_snoc.
Qed.

(** [p.with_suffix(p.suffix + ".meta")] appends [.meta] to the name. *)
Lemma with_suffix_append p :
  name p ≠ [] → sep ∉ name p →
  with_suffix p (suffix p ++ lit ".meta") = Ok (append_meta p).
Proof.
  intros Hne Hsep. unfold with_suffix, append_meta.
  assert (Hsub : sep ∉ suffix p ++ lit ".meta").
  { intros [Hin|Hin]%elem_of_app.
    - apply Hsep. unfold suffix in Hin. cbv zeta in Hin.
      case_bool_decide; [|by apply elem_of_nil in Hin].
      rewrite <- (take_drop (Z.to_nat (rfind "." (name p))) (name p)).
      apply elem_of_app. by right.
    - revert Hin. by apply (bool_decide_unpack _). }
  rewrite (bool_decide_false _ Hsub).
  destruct (suffix_cases p) as [He|(stem & rest & Hst & Hn & Hdot & Hrest)].
  - rewrite He. simpl. by rewrite (bool_decide_false _ Hne).
  - revert Hsub Hn Hdot. generalize (suffix p). intros sfx Hsub Hn ->.
    simpl. rewrite (bool_decide_false _ Hne). simpl.
    rewrite bool_decide_false by (by destruct rest).
    do 2 f_equal. rewrite Hn. rewrite length_app. simpl.
    replace (length stem + S (length rest) - S (length rest))%nat
      with (length stem) by lia.
    rewrite take_app_length. by rewrite <- app_assoc.
Qed.

(** [p.with_suffix("")] removes a [.meta] suffix. *)
Lemma with_suffix_strip p stem :
  stem ≠ [] → name p = stem ++ lit ".meta" →
  with_suffix p [] = Ok (replace_name p stem).
Proof.
  intros Hne Hn. unfold with_suffix. simpl.
  rewrite (suffix_of_meta_name p stem Hne Hn).
  rewrite bool_decide_false by (rewrite Hn; by destruct stem).
  rewrite bool_decide_false by done.
  rewrite Hn, length_app. change (length (lit ".meta")) with 5%nat.
  replace (length stem + 5 - 5)%nat with (length stem) by lia.
  by rewrite take_app_length, app_nil_r.
Qed.

(** ** The tree collector *)

Lemma node_ind' (P : node → Prop) :
  P File → (∀ missing, P (Other missing)) →
  (∀ l cs, Forall (λ e, P e.2) cs → P (Dir l cs)) →
  ∀ n, P n.
Proof.
  intros HF HO HD. fix IH 1. intros [|l cs|b]; [exact HF| |exact (HO b)].
  apply HD. induction cs as [|e cs IHcs]; constructor; [apply IH|apply IHcs].
Qed.

Lemma descend_cons p nm ns : descend p (nm :: ns) = descend (child p nm) ns.
Proof. unfold descend, child. simpl. by rewrite <- app_assoc. Qed.

Lemma descend_nil p : descend p [] = p.
Proof. destruct p. unfold descend. simpl. by rewrite app_nil_r. Qed.

Lemma descend_inj p ns ns' : descend p ns = descend p ns' → ns = ns'.
Proof. unfold descend. intros [= H]. by apply app_inv_head in H. Qed.

Lemma name_descend p ns nm : last ns = Some nm → name (descend p ns) = nm.
Proof.
  intros Hl. unfold name, descend. simpl.
  destruct ns as [|x ns _] using rev_ind; [done|].
  rewrite last_snoc in Hl. injection Hl as ->.
  by rewrite app_assoc, last_snoc.
Qed.

Section collector.

Variable excl_t excl_r : Path → node → bool.

(** The loop of [_find_elems_rec] is the source's [for p in paths]. *)
Lemma _find_elems_rec_unfold p cs acc :
  _find_elems_rec excl_t excl_r p (Dir true cs) acc =
  let paths := List.filter (λ pc, negb (excl_t pc.1 pc.2)) (iterdir p cs) in
  fold_result
    (λ acc pc, if is_dir pc.2
               then _find_elems_rec excl_t excl_r pc.1 pc.2 acc
               else Ok acc)
    paths
    (acc ∪ list_to_set
             (List.filter (λ pc, negb (excl_r pc.1 pc.2)) paths).*1).
Proof.
  cbn [_find_elems_rec]. cbv zeta.
  generalize (acc ∪ list_to_set
    (List.filter (λ pc, negb (excl_r pc.1 pc.2))
       (List.filter (λ pc, negb (excl_t pc.1 pc.2)) (iterdir p cs))).*1).
  induction cs as [|e cs IH]; intros acc'; [done|].
  cbn [iterdir map List.filter fst snd].
  destruct (excl_t (child p e.1) e.2); cbn [negb andb]; [apply IH|].
  cbn [fold_result fst snd].
  destruct (is_dir e.2); cbn [rbind]; [|apply IH].
  destruct (_find_elems_rec excl_t excl_r (child p e.1) e.2 acc');
    cbn [rbind]; [apply IH|done].
Qed.

(** The entries of one directory that pass both filters. *)
Lemma kept_children p cs q :
  q ∈ (list_to_set
         (List.filter (λ pc, negb (excl_r pc.1 pc.2))
            (List.filter (λ pc, negb (excl_t pc.1 pc.2)) (iterdir p cs))).*1
       : gset Path)
  ↔ ∃ nm c, (nm, c) ∈ cs ∧ q = child p nm
            ∧ excl_t q c = false ∧ excl_r q c = false.
Proof.
  rewrite elem_of_list_to_set, list_elem_of_fmap. split.
  - intros ([q' c] & -> & Hin). apply list_elem_of_In in Hin.
    apply filter_In in Hin as [Hin Hr]. apply filter_In in Hin as [Hin Ht].
    apply in_map_iff in Hin as ([nm c'] & [= <- <-] & Hin).
    apply list_elem_of_In in Hin. simpl in *.
    exists nm, c'. split_and!; [done|done|..]; by apply negb_true_iff.
  - intros (nm & c & Hin & -> & Ht & Hr). exists (child p nm, c).
    split; [done|]. apply list_elem_of_In.
    apply filter_In; split; [|by simpl; rewrite Hr].
    apply filter_In; split; [|by simpl; rewrite Ht].
    apply in_map_iff. exists (nm, c). split; [done|]. by apply list_elem_of_In.
Qed.

(** What the collector returns: the accumulator, and every listed entry that
    the result filter keeps. *)
Lemma find_elems_rec_listed n :
  ∀ p acc S, _find_elems_rec excl_t excl_r p n acc = Ok S →
  ∀ q, q ∈ S ↔
       q ∈ acc ∨ ∃ ns m, listed excl_t p n ns m ∧ q = descend p ns
                         ∧ excl_r q m = false.
Proof.
  induction n as [|[]|l cs IH] using node_ind'; intros p acc S; try done.
  destruct l; [|done]. rewrite _find_elems_rec_unfold. cbv zeta.
  intros Hfold q.
  (* the loop adds, to what it starts from, what lies below the directories
     among the entries it visits *)
  assert (Hloop : ∀ cs' acc' S',
    Forall (λ e, ∀ p acc S, _find_elems_rec excl_t excl_r p e.2 acc = Ok S →
       ∀ q, q ∈ S ↔ q ∈ acc ∨ ∃ ns m, listed excl_t p e.2 ns m
                                 ∧ q = descend p ns ∧ excl_r q m = false) cs' →
    fold_result
      (λ acc pc, if is_dir pc.2
                 then _find_elems_rec excl_t excl_r pc.1 pc.2 acc
                 else Ok acc)
      (List.filter (λ pc, negb (excl_t pc.1 pc.2)) (iterdir p cs')) acc'
    = Ok S' →
    ∀ q, q ∈ S' ↔
      q ∈ acc' ∨ ∃ nm c ns m, (nm, c) ∈ cs' ∧ excl_t (child p nm) c = false
                 ∧ is_dir c = true ∧ listed excl_t (child p nm) c ns m
                 ∧ q = descend (child p nm) ns ∧ excl_r q m = false).
  { clear. induction cs' as [|[nm c] cs' IHcs]; intros acc' S' HF Hf q'.
    - simpl in Hf. injection Hf as <-. split; [by left|].
      intros [?|(?&?&?&?&Hin&_)]; [done|]. by apply elem_of_nil in Hin.
    - apply Forall_cons in HF as [Hc HF]. simpl in Hc.
      cbn [iterdir map List.filter fst snd] in Hf.
      destruct (excl_t (child p nm) c) eqn:Ht; cbn [negb] in Hf.
      + rewrite (IHcs _ _ HF Hf). apply or_iff_compat_l.
        split; intros (nm' & c' & ns & m & Hin & Ht' & Hrest).
        * exists nm', c', ns, m. split; [by right|done].
        * apply elem_of_cons in Hin as [[= -> ->]|Hin]; [congruence|].
          by exists nm', c', ns, m.
      + cbn [fold_result fst snd] in Hf.
        destruct (is_dir c) eqn:Hd.
        * destruct (_find_elems_rec excl_t excl_r (child p nm) c acc')
            as [S1|] eqn:Hrec; [|done]. cbn [rbind] in Hf.
          rewrite (IHcs _ _ HF Hf), (Hc _ _ _ Hrec). split.
          -- intros [[?|(ns & m & Hl & -> & Hr)]|(nm'&c'&ns&m&Hin&Hrest)].
             ++ by left.
             ++ right. exists nm, c, ns, m. split; [by left|done].
             ++ right. exists nm', c', ns, m. split; [by right|done].
          -- intros [?|(nm'&c'&ns&m&Hin&Ht'&Hd'&Hl&Hq&Hr)]; [by left; left|].
             apply elem_of_cons in Hin as [[= -> ->]|Hin].
             ++ left; right. by exists ns, m.
             ++ right. by exists nm', c', ns, m.
        * cbn [rbind] in Hf. rewrite (IHcs _ _ HF Hf).
          apply or_iff_compat_l.
          split; intros (nm' & c' & ns & m & Hin & Ht' & Hd' & Hrest).
          -- exists nm', c', ns, m. split; [by right|done].
          -- apply elem_of_cons in Hin as [[= -> ->]|Hin]; [congruence|].
             by exists nm', c', ns, m. }
  rewrite (Hloop _ _ _ IH Hfold q), elem_of_union, kept_children.
  split.
  - intros [[?|(nm & c & Hin & -> & Ht & Hr)]
           |(nm & c & ns & m & Hin & Ht & Hd & Hl & -> & Hr)].
    + by left.
    + right. exists [nm], c. split_and!; [by constructor|done|done].
    + right. exists (nm :: ns), m. rewrite descend_cons.
      split_and!; [by econstructor|done|done].
  - intros [?|(ns & m & Hl & -> & Hr)]; [by left; left|].
    inversion Hl; subst.
    + left; right. by exists nm, m.
    + right. exists nm, c, ns0, m. by rewrite <- descend_cons.
Qed.

End collector.

(** ** Listed entries, by name *)

Lemma lookup_child_elem nm cs c : lookup_child nm cs = Some c → (nm, c) ∈ cs.
Proof.
  unfold lookup_child. destruct (List.find _ cs) as [[nm' c']|] eqn:Hf; [|done].
  intros [= <-]. apply find_some in Hf as [Hin Heq].
  apply bool_decide_eq_true in Heq. simpl in Heq. subst nm'.
  by apply list_elem_of_In.
Qed.

Lemma elem_lookup_child nm cs c :
  NoDup cs.*1 → (nm, c) ∈ cs → lookup_child nm cs = Some c.
Proof.
  unfold lookup_child. induction cs as [|[nm' c'] cs IH]; simpl.
  - intros _ Hin. by apply elem_of_nil in Hin.
  - intros [Hnotin Hnd]%NoDup_cons Hin. case_bool_decide as Heq.
    + subst nm'. apply elem_of_cons in Hin as [[= ->]|Hin]; [done|].
      exfalso. apply Hnotin. apply list_elem_of_fmap. by exists (nm, c).
    + apply elem_of_cons in Hin as [[= -> ->]|Hin]; [done|]. by apply IH.
Qed.

Lemma distinct_names_Dir l cs :
  distinct_names (Dir l cs) = true →
  NoDup cs.*1 ∧ ∀ nm c, (nm, c) ∈ cs → distinct_names c = true.
Proof.
  simpl. intros [Hnd Hall]%andb_true_iff. split.
  - by apply bool_decide_eq_true in Hnd.
  - intros nm c Hin. rewrite forallb_forall in Hall.
    apply (Hall (nm, c)). by apply list_elem_of_In.
Qed.

Lemma walk_to_dir excl p n ns m :
  walk_to excl p n ns = Some m → ns ≠ [] → is_dir n = true.
Proof. destruct ns; [done|]. by destruct n. Qed.

Lemma listed_walk_to excl p n ns m :
  distinct_names n = true →
  listed excl p n ns m ↔ ns ≠ [] ∧ walk_to excl p n ns = Some m.
Proof.
  intros Hdn. split.
  - intros Hl. induction Hl as [p l cs nm c Hin Hex|p l cs nm c ns m Hin Hex Hd Hl IH].
    + apply distinct_names_Dir in Hdn as [Hnd _]. split; [done|]. simpl.
      by rewrite (elem_lookup_child _ _ _ Hnd Hin), Hex.
    + apply distinct_names_Dir in Hdn as [Hnd Hsub]. split; [done|]. simpl.
      rewrite (elem_lookup_child _ _ _ Hnd Hin), Hex.
      apply IH. by eapply Hsub.
  - intros [Hne Had]. revert p n Hdn Had.
    induction ns as [|nm ns IH]; [done|]. intros p n Hdn Had.
    destruct n as [|l cs|]; [done| |done]. simpl in Had.
    destruct (lookup_child nm cs) as [c|] eqn:Hlk; [|done].
    destruct (excl (child p nm) c) eqn:Hex; [done|].
    apply lookup_child_elem in Hlk.
    apply distinct_names_Dir in Hdn as [_ Hsub].
    destruct ns as [|nm' ns'].
    + injection Had as <-. by constructor.
    + econstructor; [done|done| |].
      * by eapply walk_to_dir.
      * apply IH; [done|by eapply Hsub|done].
Qed.

Lemma resolve_app n ns1 ns2 :
  resolve n (ns1 ++ ns2) =
  match resolve n ns1 with
  | Some m => resolve m ns2
  | None => None
  end.
Proof.
  revert n. induction ns1 as [|nm ns1 IH]; intros n; [done|]. simpl.
  destruct n as [|l cs|]; [done| |done].
  by destruct (lookup_child nm cs).
Qed.

(** A walk reaches an entry exactly when the names resolve to it and has no excluded entry on its
    way from the root, itself included. *)
Lemma walk_to_resolve excl ns :
  ∀ p n m,
  walk_to excl p n ns = Some m ↔
  resolve n ns = Some m
  ∧ ∀ k m', (0 < k ≤ length ns)%nat → resolve n (take k ns) = Some m' →
            excl (descend p (take k ns)) m' = false.
Proof.
  induction ns as [|nm ns IH]; intros p n m.
  - simpl. split; [|by intros [? _]]. intros ->. split; [done|]. intros; lia.
  - simpl. destruct n as [|l cs|]; try (split; [done|by intros [? _]]).
    destruct (lookup_child nm cs) as [c|] eqn:Hlk;
      [|split; [done|by intros [? _]]].
    split.
    + destruct (excl (child p nm) c) eqn:Hex; [done|].
      intros [Hres Hpre]%IH. split; [done|].
      intros [|k] m' Hk; [lia|]. simpl. rewrite Hlk, descend_cons.
      destruct k as [|k].
      * rewrite take_0. simpl. intros [= <-]. by rewrite descend_nil.
      * apply Hpre. simpl in Hk. lia.
    + intros [Hres Hpre].
      assert (Hex : excl (child p nm) c = false).
      { apply (Hpre 1%nat c); simpl; [lia|by rewrite Hlk]. }
      rewrite Hex.
      apply IH. split; [done|]. intros k m' Hk Hr.
      rewrite <- descend_cons. apply (Hpre (S k) m'); [simpl; lia|].
      simpl. by rewrite Hlk.
Qed.

Lemma listed_nonempty excl p n ns m : listed excl p n ns m → ns ≠ [].
Proof. by destruct 1. Qed.

Lemma listed_valid_names excl p n ns m :
  listed excl p n ns m → valid_names n = true →
  Forall (λ s, valid_name s = true) ns.
Proof.
  induction 1 as [p l cs nm c Hin Hex|p l cs nm c ns m Hin Hex Hd Hl IH];
    simpl; intros Hv; rewrite forallb_forall in Hv;
    apply list_elem_of_In, Hv in Hin; simpl in Hin;
    apply andb_true_iff in Hin as [Hnm Hc]; constructor; auto.
Qed.

Lemma gather_asset_paths_listed root tree ef ed A :
  gather_asset_paths root tree ef ed = Ok A →
  ∀ q, q ∈ A ↔
       ∃ ns m, listed (asset_is_excluded ef ed) root tree ns m
               ∧ q = descend root ns.
Proof.
  unfold gather_asset_paths, _find_elems. intros Hg q.
  rewrite (find_elems_rec_listed _ _ _ _ _ _ Hg q). split.
  - intros [Hin|(ns & m & Hl & -> & _)]; [by apply elem_of_empty in Hin|].
    by exists ns, m.
  - intros (ns & m & Hl & ->). right. by exists ns, m.
Qed.

Lemma gather_metafile_paths_listed root tree ed M :
  gather_metafile_paths root tree ed = Ok M →
  ∀ q, q ∈ M ↔
       ∃ ns m, listed (metafile_is_excluded ed) root tree ns m
               ∧ q = descend root ns ∧ is_dir m = false.
Proof.
  unfold gather_metafile_paths, _find_elems. intros Hg q.
  rewrite (find_elems_rec_listed _ _ _ _ _ _ Hg q). split.
  - intros [Hin|(ns & m & Hl & -> & Hr)]; [by apply elem_of_empty in Hin|].
    by exists ns, m.
  - intros (ns & m & Hl & -> & Hr). right. by exists ns, m.
Qed.

Lemma asset_is_excluded_false ef ed p n :
  asset_is_excluded ef ed p n = false ↔
  (name p ∉ if is_dir n then ed else ef) ∧ suffix p ≠ lit ".meta".
Proof.
  unfold asset_is_excluded. cbv zeta.
  rewrite orb_false_iff, !bool_decide_eq_false. done.
Qed.

Lemma suffix_dot_meta_file p : name p = lit ".meta" → suffix p = [].
Proof. intros Hn. unfold suffix. by rewrite Hn. Qed.

Lemma listed_not_excluded excl p n ns m :
  listed excl p n ns m → excl (descend p ns) m = false.
Proof.
  induction 1 as [p l cs nm c Hin Hex|p l cs nm c ns m Hin Hex Hd Hl IH].
  - done.
  - by rewrite descend_cons.
Qed.

Lemma walk_to_blocked excl p n ns ks m0 :
  ns ≠ [] → resolve n ns = Some m0 → excl (descend p ns) m0 = true →
  walk_to excl p n (ns ++ ks) = None.
Proof.
  intros Hne Hres Hex.
  destruct (walk_to excl p n (ns ++ ks)) as [m|] eqn:Had; [|done].
  apply walk_to_resolve in Had as [_ Hpre].
  specialize (Hpre (length ns) m0). rewrite take_app_length in Hpre.
  rewrite Hpre in Hex; [done| |done].
  rewrite length_app. destruct ns; [done|simpl; lia].
Qed.

Lemma resolve_regular ns : ∀ n m,
  regular n = true → resolve n ns = Some m → regular m = true.
Proof.
  induction ns as [|nm ns IH]; intros n m Hreg; simpl.
  - by intros [= <-].
  - destruct n as [|l cs|]; [done| |done].
    destruct (lookup_child nm cs) as [c|] eqn:Hlk; [|done].
    apply IH. simpl in Hreg. rewrite forallb_forall in Hreg.
    apply lookup_child_elem, list_elem_of_In in Hlk. by apply Hreg in Hlk.
Qed.

(** On a tree of regular files and directories only, no path is collected
    both as an asset and as a metafile. *)
Lemma gathered_sets_disjoint_regular root tree ef ed A M :
  distinct_names tree = true → regular tree = true →
  gather_asset_paths root tree ef ed = Ok A →
  gather_metafile_paths root tree ed = Ok M →
  A ## M.
Proof.
  intros Hdn Hreg HA HM q HqA HqM.
  apply (gather_asset_paths_listed _ _ _ _ _ HA) in HqA
    as (ns & m & Hl & ->).
  apply (gather_metafile_paths_listed _ _ _ _ HM) in HqM
    as (ns' & m' & Hl' & Heq & Hnd).
  apply descend_inj in Heq as <-.
  pose proof (listed_not_excluded _ _ _ _ _ Hl) as Hex.
  pose proof (listed_not_excluded _ _ _ _ _ Hl') as Hex'.
  apply listed_walk_to in Hl as [_ Had]; [|done].
  apply listed_walk_to in Hl' as [_ Had']; [|done].
  apply walk_to_resolve in Had as [Hres _].
  apply walk_to_resolve in Had' as [Hres' _].
  assert (m' = m) as -> by congruence.
  apply resolve_regular in Hres; [|done].
  destruct m; [|done|done].
  apply asset_is_excluded_false in Hex as [_ Hsfx].
  unfold metafile_is_excluded in Hex'. simpl in Hex'.
  by apply bool_decide_eq_false in Hex'.
Qed.

(** ** Consistency checks *)

(** A decidable proposition about concrete data, by evaluation. *)
Ltac by_evaluation := apply (bool_decide_unpack _); vm_compute; exact I.






(** C3, as amended. For every path whose name is not empty (and holds no
    separator) and whose suffix is not [.meta], appending [.meta] the way
    [is_missing_metafile] does and then stripping the suffix the way
    [is_dangling_metafile] does gives the original path back. *)
Theorem append_then_strip (p : Path) :
  name p ≠ [] → sep ∉ name p → suffix p ≠ lit ".meta" →
  ∃ m, with_suffix p (suffix p ++ lit ".meta") = Ok m
       ∧ with_suffix m [] = Ok p.
Proof.
  intros Hne Hsep _. exists (append_meta p).
  split; [by apply with_suffix_append|].
  rewrite (with_suffix_strip _ (name p)).
  - unfold append_meta. by rewrite replace_name_twice, replace_name_self.
  - done.
  - unfold append_meta. by rewrite replace_name_name.
Qed.

Lemma append_then_strip_witness :
  name (descend root_dir [lit "model.tar.gz"]) ≠ []
  ∧ (sep ∉ name (descend root_dir [lit "model.tar.gz"]))
  ∧ suffix (descend root_dir [lit "model.tar.gz"]) ≠ lit ".meta"
  ∧ ∃ m, with_suffix (descend root_dir [lit "model.tar.gz"])
           (suffix (descend root_dir [lit "model.tar.gz"]) ++ lit ".meta")
         = Ok m
         ∧ with_suffix m [] = Ok (descend root_dir [lit "model.tar.gz"]).
Proof.
  set (p := descend root_dir [lit "model.tar.gz"]).
  assert (H1 : name p ≠ []) by by_evaluation.
  assert (H2 : sep ∉ name p) by by_evaluation.
  assert (H3 : suffix p ≠ lit ".meta") by by_evaluation.
  split; [exact H1|]. split; [exact H2|]. split; [exact H3|].
  exact (append_then_strip p H1 H2 H3).
Defined.

(** C3 as stated fails: the path [.] has the suffix [''], which is not
    [.meta], and appending raises [ValueError]. *)
Lemma append_raises_on_empty_name :
  suffix (mkPath [] []) ≠ lit ".meta"
  ∧ with_suffix (mkPath [] []) (suffix (mkPath [] []) ++ lit ".meta")
    = Raise ValueError.
Proof. split; [by_evaluation|reflexivity]. Qed.

(** ** Collected sets *)

(** C5, as amended. The asset set holds directories (and other entries) as
    well as files: for every root, tree and exclusion sets it contains
    exactly the entries below the root such that the entry itself and every
    directory between the root and it has a name that is not in the
    exclusion set of its kind ([excluded_dirs] for a directory,
    [excluded_files] otherwise) and a suffix other than [.meta]. *)
Theorem asset_set_characterised
    (root : Path) (tree : node) (excluded_files excluded_dirs : gset str)
    (A : gset Path) (p : Path) :
  distinct_names tree = true →
  gather_asset_paths root tree excluded_files excluded_dirs = Ok A →
  p ∈ A ↔
  ∃ ns m, ns ≠ [] ∧ p = descend root ns ∧ resolve tree ns = Some m
    ∧ ∀ k m', (0 < k ≤ length ns)%nat →
              resolve tree (take k ns) = Some m' →
              (name (descend root (take k ns))
                 ∉ if is_dir m' then excluded_dirs else excluded_files)
              ∧ suffix (descend root (take k ns)) ≠ lit ".meta".
Proof.
  intros Hdn HA. rewrite (gather_asset_paths_listed _ _ _ _ _ HA). split.
  - intros (ns & m & Hl & ->). exists ns, m.
    apply listed_walk_to in Hl as [Hne Had]; [|done].
    apply walk_to_resolve in Had as [Hres Hpre]. split_and!; [done..|].
    intros k m' Hk Hr. by apply asset_is_excluded_false, Hpre.
  - intros (ns & m & Hne & -> & Hres & Hpre). exists ns, m. split; [|done].
    apply listed_walk_to; [done|]. split; [done|].
    apply walk_to_resolve. split; [done|].
    intros k m' Hk Hr. by apply asset_is_excluded_false, Hpre.
Qed.

Lemma asset_set_characterised_witness :
  ∃ A, gather_asset_paths root_dir tree_sub ∅ ∅ = Ok A
       ∧ descend root_dir [lit "sub"; lit "a.txt"] ∈ A.
Proof.
  set (root := root_dir). set (tree := tree_sub). eexists. split; [reflexivity|].
  assert (H1 : distinct_names tree = true) by reflexivity.
  pose proof (asset_set_characterised root tree ∅ ∅ _
                (descend root [lit "sub"; lit "a.txt"]) H1 eq_refl) as Hiff.
  apply Hiff.
  exists [lit "sub"; lit "a.txt"], File.
  split; [discriminate|]. split; [reflexivity|]. split; [reflexivity|].
  intros [|[|[|k]]] m' Hk; [lia| | |simpl in Hk; lia].
  - intros [= <-]. split; [by_evaluation|by_evaluation].
  - intros [= <-]. split; [by_evaluation|by_evaluation].
Defined.

(** C5 as stated fails: a directory below the root is an element of the
    asset set. *)
Lemma asset_set_holds_directory :
  ∃ A, gather_asset_paths root_dir tree_empty_dir ∅ ∅ = Ok A
       ∧ (descend root_dir [lit "sub"] ∈ A)
       ∧ resolve tree_empty_dir [lit "sub"] = Some (Dir true []).
Proof.
  eexists. split; [reflexivity|].
  split; [by_evaluation|reflexivity].
Qed.

(** C8, at an input on which the code breaks it: an entry that is neither
    a regular file nor a directory (a broken symbolic link), with a name
    without the [.meta] suffix, is collected into both sets. *)
Theorem broken_link_in_both_sets :
  ∃ A M, gather_asset_paths root_dir tree_broken_link ∅ ∅ = Ok A
         ∧ gather_metafile_paths root_dir tree_broken_link ∅ = Ok M
         ∧ (descend root_dir [lit "lnk"] ∈ A)
         ∧ (descend root_dir [lit "lnk"] ∈ M)
         ∧ ¬ A ## M.
Proof.
  set (root := root_dir). set (tree := tree_broken_link). eexists. eexists.
  split; [reflexivity|]. split; [reflexivity|].
  assert (Ha : descend root [lit "lnk"] ∈
               (match gather_asset_paths root tree ∅ ∅ with
                | Ok s => s | Raise _ => ∅ end)) by by_evaluation.
  assert (Hm : descend root [lit "lnk"] ∈
               (match gather_metafile_paths root tree ∅ with
                | Ok s => s | Raise _ => ∅ end)) by by_evaluation.
  split; [exact Ha|]. split; [exact Hm|].
  intros Hd. exact (Hd _ Ha Hm).
Qed.

(** ** Names of collected paths *)

Lemma valid_name_spec s : valid_name s = true → s ≠ [] ∧ sep ∉ s.
Proof.
  unfold valid_name. intros [H1 H2]%andb_true_iff.
  apply negb_true_iff, bool_decide_eq_false in H1, H2. done.
Qed.

(** The name of a listed entry is the name found in its directory. *)
Lemma listed_name_valid excl p n ns m :
  valid_names n = true → listed excl p n ns m →
  name (descend p ns) ≠ [] ∧ sep ∉ name (descend p ns).
Proof.
  intros Hv Hl. pose proof (listed_valid_names _ _ _ _ _ Hl Hv) as Hall.
  apply listed_nonempty in Hl.
  destruct ns as [|x ns _] using rev_ind; [done|].
  rewrite (name_descend _ _ x) by apply last_snoc.
  rewrite Forall_app, Forall_singleton in Hall. destruct Hall as [_ Hx].
  exact (valid_name_spec _ Hx).
Qed.


(** ** Event lines *)

Lemma join_cons sep x xs :
  join sep (x :: xs) = x ++ concat (map (λ s, sep ++ s) xs).
Proof.
  revert x. induction xs as [|y xs IH]; intros x.
  - simpl. by rewrite app_nil_r.
  - change (join sep (x :: y :: xs)) with (x ++ sep ++ join sep (y :: xs)).
    rewrite IH. simpl. by rewrite <- app_assoc.
Qed.

Lemma _msg_shape m :
  _msg m = lit "##teamcity[" ++ text m ++ props_tail (properties m).
Proof.
  unfold _msg, props_tail. cbv zeta. f_equal.
  change ([text m] ++ ?l) with (text m :: l).
  rewrite join_cons, <- app_assoc. do 2 f_equal.
  by rewrite map_map.
Qed.

Lemma strip_prefix_app pre s : strip_prefix pre (pre ++ s) = Some s.
Proof.
  induction pre as [|a pre IH]; simpl; [by destruct s|].
  by rewrite bool_decide_true.
Qed.

Lemma split_at_app c l r : c ∉ l → split_at c (l ++ c :: r) = Some (l, r).
Proof.
  induction l as [|a l IH]; simpl; intros Hn.
  - by rewrite bool_decide_true.
  - apply not_elem_of_cons in Hn as [Hne Hn].
    rewrite bool_decide_false by congruence. by rewrite IH.
Qed.

Lemma read_name_app l r :
  " "%char ∉ l → "]"%char ∉ l →
  match r with a :: _ => a = " "%char ∨ a = "]"%char | [] => True end →
  read_name (l ++ r) = (l, r).
Proof.
  intros Hs Hb Hr. induction l as [|a l IH]; simpl.
  - destruct r as [|a r]; [done|]. simpl. by rewrite bool_decide_true.
  - apply not_elem_of_cons in Hs as [Hs1 Hs]. apply not_elem_of_cons in Hb as [Hb1 Hb].
    rewrite bool_decide_false by (intros [?|?]; congruence).
    by rewrite IH.
Qed.

Lemma plain_word_chars s :
  plain_word s = true →
  (" "%char ∉ s) ∧ ("]"%char ∉ s) ∧ ("="%char ∉ s).
Proof.
  unfold plain_word. rewrite forallb_forall. intros Hall.
  split_and!; intros Hin%list_elem_of_In%Hall; by vm_compute in Hin.
Qed.

Lemma plain_value_chars v : plain_value v = true → "'"%char ∉ v.
Proof.
  unfold plain_value. rewrite forallb_forall.
  intros Hall Hin%list_elem_of_In%Hall. by vm_compute in Hin.
Qed.

Lemma read_props_tail kvs fuel :
  forallb (λ kv, plain_word kv.1 && plain_value kv.2) kvs = true →
  (length kvs < fuel)%nat →
  read_props fuel (props_tail kvs) = Some kvs.
Proof.
  revert fuel. induction kvs as [|[k v] kvs IH]; intros fuel Hp Hf.
  - destruct fuel; [lia|done].
  - destruct fuel as [|fuel]; [simpl in Hf; lia|].
    simpl in Hp. apply andb_true_iff in Hp as [Hkv Hp].
    apply andb_true_iff in Hkv as [Hk Hv].
    apply plain_word_chars in Hk as (_ & _ & Hk).
    apply plain_value_chars in Hv.
    unfold props_tail. cbn [map concat fst snd].
    rewrite <- !app_assoc. cbn [app]. cbn [read_props].
    rewrite <- app_assoc. cbn [app].
    rewrite (split_at_app _ _ _ Hk).
    rewrite <- app_assoc. cbn [app].
    rewrite (split_at_app _ _ _ Hv).
    fold (props_tail kvs). rewrite IH; [done|done|simpl in Hf; lia].
Qed.

Lemma props_tail_length kvs : (length kvs < length (props_tail kvs))%nat.
Proof.
  unfold props_tail. induction kvs as [|[k v] kvs IH]; simpl; [lia|].
  rewrite !length_app in *. simpl in *. lia.
Qed.

(** C7, as amended. Values are written between the quotes as they are,
    with no escaping. For every event whose name and keys hold no space,
    equals sign or structural character, and whose values hold no
    structural character (quote, vertical bar, bracket, line break), the
    emitted line reads back as the event's name and properties. *)
Theorem plain_msg_reads_back (m : TeamCityMsg) :
  plain_msg m = true → parse_msg (_msg m) = Some m.
Proof.
  destruct m as [name kvs]. unfold plain_msg. simpl.
  intros [Hname Hkvs]%andb_true_iff.
  unfold parse_msg. rewrite _msg_shape, strip_prefix_app. simpl.
  apply plain_word_chars in Hname as (Hs & Hb & _).
  rewrite read_name_app; [|done|done|].
  - by rewrite read_props_tail; [|done|apply props_tail_length].
  - unfold props_tail. destruct kvs as [|[k v] kvs]; simpl; auto.
Qed.

Lemma plain_msg_reads_back_witness :
  plain_msg msg_failed = true ∧ parse_msg (_msg msg_failed) = Some msg_failed.
Proof.
  set (m := msg_failed).
  assert (H1 : plain_msg m = true) by (vm_compute; reflexivity).
  split; [exact H1|]. exact (plain_msg_reads_back m H1).
Defined.

(** C7 as stated fails: a quote in a value is written as it is, and two
    different events give the same line. *)
Lemma quote_in_value_not_escaped :
  msg_quote ≠ msg_two_props
  ∧ _msg msg_quote = lit "##teamcity[testStarted name='a' b='c']"
  ∧ _msg msg_quote = _msg msg_two_props.
Proof. split; [discriminate|]. split; reflexivity. Qed.

(** ** A file named [.meta] *)

Lemma resolve_through ns : ∀ n k m' m,
  resolve n ns = Some m → resolve n (take k ns) = Some m' →
  (k < length ns)%nat → is_dir m' = true.
Proof.
  intros n k m' m Hres Hpre Hk.
  rewrite <- (take_drop k ns), resolve_app, Hpre in Hres.
  destruct (drop k ns) as [|x rest] eqn:Hd.
  - apply (f_equal length) in Hd. rewrite length_drop in Hd. simpl in Hd. lia.
  - by destruct m'.
Qed.

(** C10, as amended. A regular file named exactly [.meta] is never an
    element of the metafile set. If [.meta] is not in [excluded_files] and
    no directory between the root and the file has a name in
    [excluded_dirs] or the suffix [.meta], the file is an element of the
    asset set, and its check looks for the companion named [.meta.meta]. *)
Theorem dot_meta_file_is_an_asset
    (root : Path) (tree : node) (excluded_files excluded_dirs : gset str)
    (A M : gset Path) (ns : list str) :
  distinct_names tree = true →
  gather_asset_paths root tree excluded_files excluded_dirs = Ok A →
  gather_metafile_paths root tree excluded_dirs = Ok M →
  resolve tree ns = Some File → last ns = Some (lit ".meta") →
  (descend root ns ∉ M)
  ∧ (lit ".meta" ∉ excluded_files →
     (∀ k l cs, (0 < k < length ns)%nat →
                resolve tree (take k ns) = Some (Dir l cs) →
                (name (descend root (take k ns)) ∉ excluded_dirs)
                ∧ suffix (descend root (take k ns)) ≠ lit ".meta") →
     (descend root ns ∈ A)
     ∧ is_missing_metafile (descend root ns) M
       = Ok (bool_decide
               (replace_name (descend root ns) (lit ".meta.meta") ∉ M))).
Proof.
  intros Hdn HA HM Hres Hlast.
  assert (Hname : name (descend root ns) = lit ".meta")
    by by apply name_descend.
  assert (Hsfx : suffix (descend root ns) = [])
    by by apply suffix_dot_meta_file.
  assert (Hne : ns ≠ []) by (by destruct ns).
  split.
  - intros (ns' & m & Hl & Heq & _)%(gather_metafile_paths_listed _ _ _ _ HM).
    apply descend_inj in Heq as <-.
    pose proof (listed_not_excluded _ _ _ _ _ Hl) as Hex.
    apply listed_walk_to in Hl as [_ Had]; [|done].
    apply walk_to_resolve in Had as [Hres' _].
    assert (m = File) as -> by congruence.
    unfold metafile_is_excluded in Hex. simpl in Hex.
    apply bool_decide_eq_false in Hex. apply Hex. by rewrite Hsfx.
  - intros Hef Hdirs. split.
    + apply (gather_asset_paths_listed _ _ _ _ _ HA). exists ns, File.
      split; [|done]. apply listed_walk_to; [done|]. split; [done|].
      apply walk_to_resolve. split; [done|].
      intros k m' Hk Hpre. apply asset_is_excluded_false.
      destruct (decide (k = length ns)) as [->|Hlt].
      * rewrite firstn_all in *.
        assert (m' = File) as -> by congruence. simpl.
        rewrite Hname, Hsfx. done.
      * assert (Hd : is_dir m' = true)
          by (eapply resolve_through; [exact Hres|exact Hpre|lia]).
        destruct m' as [|l cs|]; [done| |done]. simpl.
        apply (Hdirs k l cs); [lia|done].
    + unfold is_missing_metafile.
      rewrite with_suffix_append.
      * unfold append_meta. by rewrite Hname.
      * by rewrite Hname.
      * rewrite Hname. by_evaluation.
Qed.

Lemma dot_meta_file_is_an_asset_witness :
  ∃ A M, gather_asset_paths root_dir tree_dot_meta ∅ ∅ = Ok A
         ∧ gather_metafile_paths root_dir tree_dot_meta ∅ = Ok M
         ∧ (descend root_dir [lit "sub"; lit ".meta"] ∉ M)
         ∧ (descend root_dir [lit "sub"; lit ".meta"] ∈ A)
         ∧ is_missing_metafile (descend root_dir [lit "sub"; lit ".meta"]) M
           = Ok true.
Proof.
  set (root := root_dir). set (tree := tree_dot_meta). eexists. eexists.
  split; [reflexivity|]. split; [reflexivity|].
  assert (H1 : distinct_names tree = true) by reflexivity.
  pose proof (dot_meta_file_is_an_asset root tree ∅ ∅ _ _
                [lit "sub"; lit ".meta"] H1 eq_refl eq_refl eq_refl eq_refl)
    as [HM HA].
  split; [exact HM|].
  assert (H2 : lit ".meta" ∉ (∅ : gset str)) by by_evaluation.
  destruct HA as [HA Hcheck]; [exact H2| |].
  - intros [|[|k]] l cs Hk; [lia| |simpl in Hk; lia].
    intros _. split; by_evaluation.
  - split; [exact HA|]. rewrite Hcheck. reflexivity.
Defined.

(** C10 as stated fails: below a directory named [d.meta], which is not in
    [excluded_dirs], a file named [.meta] that is not in [excluded_files]
    is not an element of the asset set. *)
Lemma dot_meta_file_below_meta_directory :
  ∃ A, gather_asset_paths root_dir tree_meta_dir ∅ ∅ = Ok A
       ∧ resolve tree_meta_dir [lit "d.meta"; lit ".meta"] = Some File
       ∧ (descend root_dir [lit "d.meta"; lit ".meta"] ∉ A).
Proof.
  eexists. split; [reflexivity|].
  split; [reflexivity|by_evaluation].
Qed.

(** ** Outcome of the collector *)

Section collector_outcome.

Variable excl_t excl_r : Path → node → bool.

Lemma find_elems_rec_outcome n :
  ∀ p acc,
  match _find_elems_rec excl_t excl_r p n acc with
  | Ok _ => traversable excl_t p n = true
  | Raise e =>
      traversable excl_t p n = false
      ∧ (is_dir n = true → e = PermissionError)
  end.
Proof.
  induction n as [|[]|l cs IH] using node_ind'; intros p acc; [done..|].
  destruct l; [|done]. rewrite _find_elems_rec_unfold. cbv zeta.
  cbn [traversable andb is_dir].
  generalize (acc ∪ list_to_set
    (List.filter (λ pc, negb (excl_r pc.1 pc.2))
       (List.filter (λ pc, negb (excl_t pc.1 pc.2)) (iterdir p cs))).*1).
  revert IH. induction cs as [|[nm c] cs IHcs]; intros IH acc'; [done|].
  apply Forall_cons in IH as [Hc IH]. simpl in Hc.
  cbn [iterdir map List.filter forallb fst snd].
  destruct (excl_t (child p nm) c); cbn [negb orb andb]; [by apply IHcs|].
  cbn [fold_result fst snd]. destruct (is_dir c) eqn:Hd; cbn [negb orb].
  - specialize (Hc (child p nm) acc').
    destruct (_find_elems_rec excl_t excl_r (child p nm) c acc')
      as [S1|e1]; cbn [rbind].
    + rewrite Hc. by apply IHcs.
    + destruct Hc as [-> He]. split; [done|]. intros _. by apply He.
  - by apply IHcs.
Qed.

End collector_outcome.

Lemma gather_asset_paths_outcome root tree ef ed :
  match gather_asset_paths root tree ef ed with
  | Ok _ => traversable (asset_is_excluded ef ed) root tree = true
  | Raise e =>
      traversable (asset_is_excluded ef ed) root tree = false
      ∧ (is_dir tree = true → e = PermissionError)
  end.
Proof. apply find_elems_rec_outcome. Qed.

Lemma gather_metafile_paths_outcome root tree ed :
  match gather_metafile_paths root tree ed with
  | Ok _ => traversable (metafile_is_excluded ed) root tree = true
  | Raise e =>
      traversable (metafile_is_excluded ed) root tree = false
      ∧ (is_dir tree = true → e = PermissionError)
  end.
Proof. apply find_elems_rec_outcome. Qed.

(** X1. [_find_elems] returns a set only when the root is a directory
    that can be listed and so is every directory below it that the
    traversal filter does not exclude: a root that is a file or that does
    not exist, or one directory in the way that cannot be listed, and no
    set is returned. *)
Theorem find_elems_outcome
    (root : Path) (tree : node) (is_excluded_transverse : Path → node → bool)
    (is_excluded_result : option (Path → node → bool)) (S : gset Path) :
  _find_elems root tree is_excluded_transverse is_excluded_result = Ok S →
  traversable is_excluded_transverse root tree = true.
Proof.
  unfold _find_elems. cbv zeta. intros HS.
  pose proof (find_elems_rec_outcome is_excluded_transverse
    match is_excluded_result with
    | Some f => f
    | None => λ _ _, false
    end tree root ∅) as Ho.
  by rewrite HS in Ho.
Qed.

Lemma find_elems_outcome_witness :
  ∃ S, _find_elems root_dir tree_locked
         (asset_is_excluded ∅ {[ lit "private" ]}) None = Ok S
       ∧ traversable (asset_is_excluded ∅ {[ lit "private" ]})
           root_dir tree_locked = true.
Proof.
  eexists. split; [reflexivity|].
  pose proof (find_elems_outcome root_dir tree_locked
                (asset_is_excluded ∅ {[ lit "private" ]}) None _ eq_refl)
    as Ht.
  exact Ht.
Defined.

(** ** More exclusions, fewer paths *)

Lemma traversable_mono (excl excl' : Path → node → bool) :
  (∀ p n, excl p n = true → excl' p n = true) →
  ∀ n p, traversable excl p n = true → traversable excl' p n = true.
Proof.
  intros Hsub. induction n as [| |l cs IH] using node_ind'; [done|done|].
  intros p. cbn [traversable]. intros [-> Hall]%andb_true_iff. simpl.
  rewrite forallb_forall in Hall |- *. intros e Hin.
  rewrite Forall_forall in IH. specialize (Hall e Hin).
  apply list_elem_of_In in Hin. specialize (IH e Hin (child p e.1)).
  destruct (excl (child p e.1) e.2) eqn:Hex.
  - by rewrite (Hsub _ _ Hex).
  - simpl in Hall. destruct (is_dir e.2); simpl in *.
    + rewrite (IH Hall). by rewrite orb_true_r.
    + by rewrite orb_true_r.
Qed.

Lemma listed_mono (excl excl' : Path → node → bool) p n ns m :
  (∀ p n, excl p n = true → excl' p n = true) →
  listed excl' p n ns m → listed excl p n ns m.
Proof.
  intros Hsub.
  assert (Hf : ∀ p n, excl' p n = false → excl p n = false).
  { intros q c Hq. destruct (excl q c) eqn:Hex; [|done].
    apply Hsub in Hex. congruence. }
  induction 1; [constructor|econstructor]; eauto.
Qed.

Lemma asset_is_excluded_mono (ef ef' ed ed' : gset str) p n :
  ef ⊆ ef' → ed ⊆ ed' →
  asset_is_excluded ef ed p n = true → asset_is_excluded ef' ed' p n = true.
Proof.
  unfold asset_is_excluded. cbv zeta. intros Hf Hd.
  rewrite !orb_true_iff, !bool_decide_eq_true. intros [Hin|?]; [left|by right].
  destruct (is_dir n); set_solver.
Qed.

Lemma metafile_is_excluded_mono (ed ed' : gset str) p n :
  ed ⊆ ed' →
  metafile_is_excluded ed p n = true → metafile_is_excluded ed' p n = true.
Proof.
  unfold metafile_is_excluded. intros Hd. destruct (is_file n); [done|].
  rewrite !bool_decide_eq_true. set_solver.
Qed.

(** X3. Adding names to the exclusion sets never makes a collection fail
    and never adds a path: with larger exclusion sets both collections
    still return, and each returns a subset of what it returned before. *)
Theorem more_exclusions_fewer_paths
    (root : Path) (tree : node) (ef ef' ed ed' : gset str)
    (A M : gset Path) :
  ef ⊆ ef' → ed ⊆ ed' →
  gather_asset_paths root tree ef ed = Ok A →
  gather_metafile_paths root tree ed = Ok M →
  ∃ A' M', gather_asset_paths root tree ef' ed' = Ok A'
           ∧ gather_metafile_paths root tree ed' = Ok M'
           ∧ A' ⊆ A ∧ M' ⊆ M.
Proof.
  intros Hf Hd HA HM.
  pose proof (gather_asset_paths_outcome root tree ef ed) as HtA.
  pose proof (gather_metafile_paths_outcome root tree ed) as HtM.
  rewrite HA in HtA. rewrite HM in HtM.
  pose proof (gather_asset_paths_outcome root tree ef' ed') as HtA'.
  pose proof (gather_metafile_paths_outcome root tree ed') as HtM'.
  destruct (gather_asset_paths root tree ef' ed') as [A'|e] eqn:HA'.
  2:{ destruct HtA' as [HtA' _].
      rewrite (traversable_mono (asset_is_excluded ef ed)) in HtA';
        [done| |done].
      intros p n. by apply asset_is_excluded_mono. }
  destruct (gather_metafile_paths root tree ed') as [M'|e] eqn:HM'.
  2:{ destruct HtM' as [HtM' _].
      rewrite (traversable_mono (metafile_is_excluded ed)) in HtM';
        [done| |done].
      intros p n. by apply metafile_is_excluded_mono. }
  exists A', M'. split_and!; [done|done|..].
  - intros q (ns & m & Hl & ->)%(gather_asset_paths_listed _ _ _ _ _ HA').
    apply (gather_asset_paths_listed _ _ _ _ _ HA). exists ns, m.
    split; [|done]. eapply listed_mono; [|exact Hl].
    intros p n. by apply asset_is_excluded_mono.
  - intros q (ns & m & Hl & -> & Hr)%(gather_metafile_paths_listed _ _ _ _ HM').
    apply (gather_metafile_paths_listed _ _ _ _ HM). exists ns, m.
    split_and!; [|done|done]. eapply listed_mono; [|exact Hl].
    intros p n. by apply metafile_is_excluded_mono.
Qed.

Lemma more_exclusions_fewer_paths_witness :
  ∃ A M A' M',
    gather_asset_paths root_dir tree_build ∅ ∅ = Ok A
    ∧ gather_metafile_paths root_dir tree_build ∅ = Ok M
    ∧ gather_asset_paths root_dir tree_build {[ lit "a.txt" ]}
        {[ lit "build" ]} = Ok A'
    ∧ gather_metafile_paths root_dir tree_build {[ lit "build" ]} = Ok M'
    ∧ A' ⊆ A ∧ M' ⊆ M.
Proof.
  assert (H1 : (∅ : gset str) ⊆ {[ lit "a.txt" ]}) by apply empty_subseteq.
  assert (H2 : (∅ : gset str) ⊆ {[ lit "build" ]}) by apply empty_subseteq.
  destruct (more_exclusions_fewer_paths root_dir tree_build
              ∅ {[ lit "a.txt" ]} ∅ {[ lit "build" ]} _ _
              H1 H2 eq_refl eq_refl) as (A' & M' & HA' & HM' & HsA & HsM).
  eexists _, _, A', M'. split; [reflexivity|]. split; [reflexivity|].
  split; [exact HA'|]. split; [exact HM'|]. split; [exact HsA|exact HsM].
Defined.

(** ** Collected paths *)

(** X4. Every path [_find_elems] returns lies strictly below the root: it
    has the anchor of the root and the root's components followed by at
    least one more; the root itself is never collected. *)
Theorem collected_below_root
    (root : Path) (tree : node) (is_excluded_transverse : Path → node → bool)
    (is_excluded_result : option (Path → node → bool))
    (S : gset Path) (q : Path) :
  _find_elems root tree is_excluded_transverse is_excluded_result = Ok S →
  q ∈ S →
  q ≠ root ∧ anchor q = anchor root
  ∧ ∃ ns, ns ≠ [] ∧ parts q = parts root ++ ns.
Proof.
  unfold _find_elems. intros Hg Hq.
  apply (find_elems_rec_listed _ _ _ _ _ _ Hg) in Hq
    as [Hq|(ns & m & Hl & -> & _)]; [by apply elem_of_empty in Hq|].
  apply listed_nonempty in Hl. split_and!; [|done|by exists ns].
  intros Heq. apply (f_equal parts) in Heq. simpl in Heq.
  rewrite <- (app_nil_r (parts root)) in Heq at 2.
  by apply app_inv_head in Heq.
Qed.

Lemma collected_below_root_witness :
  ∃ A, gather_asset_paths root_dir tree_sub ∅ ∅ = Ok A
       ∧ (descend root_dir [lit "sub"] ∈ A)
       ∧ descend root_dir [lit "sub"] ≠ root_dir.
Proof.
  eexists. split; [reflexivity|].
  assert (Hin : descend root_dir [lit "sub"] ∈
                match gather_asset_paths root_dir tree_sub ∅ ∅ with
                | Ok s => s | Raise _ => ∅ end) by by_evaluation.
  split; [exact Hin|].
  exact (proj1 (collected_below_root root_dir tree_sub
                  (asset_is_excluded ∅ ∅) None _ _ eq_refl Hin)).
Defined.

Lemma metafile_is_excluded_false ed p n :
  metafile_is_excluded ed p n = false ↔
  if is_file n then suffix p = lit ".meta" else name p ∉ ed.
Proof.
  unfold metafile_is_excluded. destruct (is_file n);
    rewrite bool_decide_eq_false; [|done].
  split; [apply dec_stable|by intros ? ?].
Qed.

(** X5. The metafile set contains exactly the entries below the root that
    are no directories and such that, of the entry and the entries between
    the root and it, every regular file has the suffix [.meta] and every
    other entry has a name that is not in [excluded_dirs]. *)
Theorem metafile_set_characterised
    (root : Path) (tree : node) (excluded_dirs : gset str)
    (M : gset Path) (p : Path) :
  distinct_names tree = true →
  gather_metafile_paths root tree excluded_dirs = Ok M →
  p ∈ M ↔
  ∃ ns m, ns ≠ [] ∧ p = descend root ns ∧ resolve tree ns = Some m
    ∧ is_dir m = false
    ∧ ∀ k m', (0 < k ≤ length ns)%nat →
              resolve tree (take k ns) = Some m' →
              if is_file m'
              then suffix (descend root (take k ns)) = lit ".meta"
              else name (descend root (take k ns)) ∉ excluded_dirs.
Proof.
  intros Hdn HM. rewrite (gather_metafile_paths_listed _ _ _ _ HM). split.
  - intros (ns & m & Hl & -> & Hd). exists ns, m.
    apply listed_walk_to in Hl as [Hne Had]; [|done].
    apply walk_to_resolve in Had as [Hres Hpre]. split_and!; [done..|].
    intros k m' Hk Hr. by apply metafile_is_excluded_false, Hpre.
  - intros (ns & m & Hne & -> & Hres & Hd & Hpre). exists ns, m.
    split_and!; [|done|done].
    apply listed_walk_to; [done|]. split; [done|].
    apply walk_to_resolve. split; [done|].
    intros k m' Hk Hr. by apply metafile_is_excluded_false, Hpre.
Qed.

Lemma metafile_set_characterised_witness :
  ∃ M, gather_metafile_paths root_dir tree_build ∅ = Ok M
       ∧ descend root_dir [lit "build"; lit "d.txt.meta"] ∈ M.
Proof.
  eexists. split; [reflexivity|].
  assert (H1 : distinct_names tree_build = true) by reflexivity.
  pose proof (metafile_set_characterised root_dir tree_build ∅ _
                (descend root_dir [lit "build"; lit "d.txt.meta"])
                H1 eq_refl) as Hiff.
  apply Hiff. exists [lit "build"; lit "d.txt.meta"], File.
  split; [discriminate|]. split; [reflexivity|]. split; [reflexivity|].
  split; [reflexivity|].
  intros [|[|[|k]]] m' Hk; [lia| | |simpl in Hk; lia].
  - intros [= <-]. by_evaluation.
  - intros [= <-]. reflexivity.
Defined.

(** ** The order of directory entries *)

Lemma forallb_perm {A} (f : A → bool) (l l' : list A) :
  l ≡ₚ l' → forallb f l = forallb f l'.
Proof.
  induction 1 as [|x l l' _ IH|x y l|l l' l'' _ IH1 _ IH2]; simpl.
  - done.
  - by rewrite IH.
  - by destruct (f x), (f y).
  - congruence.
Qed.

Lemma listed_perm excl p l cs cs' ns m :
  cs ≡ₚ cs' → listed excl p (Dir l cs) ns m → listed excl p (Dir l cs') ns m.
Proof.
  intros Hp Hl. inversion Hl; subst;
    [constructor|econstructor]; eauto; by rewrite <- Hp.
Qed.

Section reordering.

Variable excl_t excl_r : Path → node → bool.

(** The filters look at the kind of an entry only. *)
Hypothesis excl_t_kind : ∀ p n n',
  is_dir n = is_dir n' → is_file n = is_file n' → excl_t p n = excl_t p n'.
Hypothesis excl_r_kind : ∀ p n n',
  is_dir n = is_dir n' → is_file n = is_file n' → excl_r p n = excl_r p n'.

Lemma find_elems_rec_perm p l cs cs' acc :
  cs ≡ₚ cs' →
  _find_elems_rec excl_t excl_r p (Dir l cs) acc
  = _find_elems_rec excl_t excl_r p (Dir l cs') acc.
Proof.
  intros Hp.
  pose proof (find_elems_rec_outcome excl_t excl_r (Dir l cs) p acc) as H1.
  pose proof (find_elems_rec_outcome excl_t excl_r (Dir l cs') p acc) as H2.
  assert (Ht : traversable excl_t p (Dir l cs)
               = traversable excl_t p (Dir l cs')).
  { cbn [traversable]. f_equal. by apply forallb_perm. }
  destruct (_find_elems_rec excl_t excl_r p (Dir l cs) acc) as [S|e] eqn:E1,
           (_find_elems_rec excl_t excl_r p (Dir l cs') acc) as [S'|e'] eqn:E2.
  - f_equal. apply set_eq. intros q.
    rewrite (find_elems_rec_listed _ _ _ _ _ _ E1 q),
            (find_elems_rec_listed _ _ _ _ _ _ E2 q).
    apply or_iff_compat_l.
    split; intros (ns & m & Hl & Hrest); exists ns, m; (split; [|done]).
    + by apply (listed_perm _ _ _ cs cs').
    + by apply (listed_perm _ _ _ cs' cs).
  - destruct H2 as [H2 _]. congruence.
  - destruct H1 as [H1 _]. congruence.
  - destruct H1 as [_ H1], H2 as [_ H2]. by rewrite (H1 eq_refl), (H2 eq_refl).
Qed.

Lemma reordered_kind n n' :
  reordered n n' → is_dir n = is_dir n' ∧ is_file n = is_file n'.
Proof. induction 1; try done. intuition congruence. Qed.

(** The loop of [_find_elems_rec], over the entries of the directory. *)
Lemma find_elems_rec_fold p cs acc :
  _find_elems_rec excl_t excl_r p (Dir true cs) acc =
  fold_result
    (λ acc e, if negb (excl_t (child p e.1) e.2) && is_dir e.2
              then _find_elems_rec excl_t excl_r (child p e.1) e.2 acc
              else Ok acc)
    cs
    (acc ∪ list_to_set
             (List.filter (λ pc, negb (excl_r pc.1 pc.2))
                (List.filter (λ pc, negb (excl_t pc.1 pc.2))
                   (iterdir p cs))).*1).
Proof.
  cbn [_find_elems_rec]. cbv zeta.
  generalize (acc ∪ list_to_set
    (List.filter (λ pc, negb (excl_r pc.1 pc.2))
       (List.filter (λ pc, negb (excl_t pc.1 pc.2)) (iterdir p cs))).*1).
  induction cs as [|e cs IH]; intros acc'; [done|].
  cbn [fold_result].
  destruct (negb (excl_t (child p e.1) e.2) && is_dir e.2); cbn [rbind].
  - destruct (_find_elems_rec excl_t excl_r (child p e.1) e.2 acc');
      cbn [rbind]; [apply IH|done].
  - apply IH.
Qed.

Lemma kept_paths_congr p cs cs' :
  Forall2 (λ e e', e.1 = e'.1 ∧ is_dir e.2 = is_dir e'.2
                   ∧ is_file e.2 = is_file e'.2) cs cs' →
  (List.filter (λ pc, negb (excl_r pc.1 pc.2))
     (List.filter (λ pc, negb (excl_t pc.1 pc.2)) (iterdir p cs))).*1
  = (List.filter (λ pc, negb (excl_r pc.1 pc.2))
       (List.filter (λ pc, negb (excl_t pc.1 pc.2)) (iterdir p cs'))).*1.
Proof.
  induction 1 as [|[nm c] [nm' c'] cs cs' (Hn & Hd & Hf) _ IH]; [done|].
  simpl in Hn, Hd, Hf. subst nm'.
  cbn [iterdir map List.filter fst snd].
  rewrite (excl_t_kind (child p nm) c c' Hd Hf).
  destruct (excl_t (child p nm) c'); cbn [negb]; [exact IH|].
  cbn [List.filter fst snd].
  rewrite (excl_r_kind (child p nm) c c' Hd Hf).
  destruct (excl_r (child p nm) c'); cbn [negb]; [exact IH|].
  cbn [fmap list_fmap fst]. f_equal. exact IH.
Qed.

Lemma fold_children_congr p cs cs' :
  Forall2 (λ e e', e.1 = e'.1 ∧ is_dir e.2 = is_dir e'.2
                   ∧ is_file e.2 = is_file e'.2
                   ∧ ∀ q acc, _find_elems_rec excl_t excl_r q e.2 acc
                              = _find_elems_rec excl_t excl_r q e'.2 acc)
          cs cs' →
  ∀ acc,
  fold_result
    (λ acc e, if negb (excl_t (child p e.1) e.2) && is_dir e.2
              then _find_elems_rec excl_t excl_r (child p e.1) e.2 acc
              else Ok acc) cs acc
  = fold_result
      (λ acc e, if negb (excl_t (child p e.1) e.2) && is_dir e.2
                then _find_elems_rec excl_t excl_r (child p e.1) e.2 acc
                else Ok acc) cs' acc.
Proof.
  induction 1 as [|[nm c] [nm' c'] cs cs' (Hn & Hd & Hf & Hrec) _ IH];
    intros acc; [done|].
  simpl in Hn, Hd, Hf, Hrec. subst nm'. cbn [fold_result fst snd].
  rewrite (excl_t_kind (child p nm) c c' Hd Hf), Hd, Hrec.
  destruct (if negb (excl_t (child p nm) c') && is_dir c'
            then _find_elems_rec excl_t excl_r (child p nm) c' acc
            else Ok acc); cbn [rbind]; [apply IH|done].
Qed.

Lemma find_elems_rec_reordered n n' :
  reordered n n' →
  ∀ p acc, _find_elems_rec excl_t excl_r p n acc
           = _find_elems_rec excl_t excl_r p n' acc.
Proof.
  induction 1 as [n|l cs cs' Hp|l cs1 nm c c' cs2 Hr IH|n1 n2 n3 _ IH1 _ IH2];
    intros p acc.
  - done.
  - by apply find_elems_rec_perm.
  - destruct l; [|done]. rewrite !find_elems_rec_fold.
    apply reordered_kind in Hr as [Hd Hf].
    assert (Hsame : Forall2
      (λ e e', e.1 = e'.1 ∧ is_dir e.2 = is_dir e'.2
               ∧ is_file e.2 = is_file e'.2
               ∧ ∀ q acc, _find_elems_rec excl_t excl_r q e.2 acc
                          = _find_elems_rec excl_t excl_r q e'.2 acc)
      (cs1 ++ (nm, c) :: cs2) (cs1 ++ (nm, c') :: cs2)).
    { apply Forall2_app; [|constructor; [done|]];
        apply Forall_Forall2_diag, Forall_forall; by intros. }
    rewrite (kept_paths_congr p _ (cs1 ++ (nm, c') :: cs2)).
    + by apply fold_children_congr.
    + eapply Forall2_impl; [exact Hsame|]. by intros ?? (?&?&?&?).
  - by rewrite IH1.
Qed.

(** The loop takes the same steps over two lists of entries. *)
Lemma fold_children_step_congr p cs cs' :
  Forall2 (λ e e', ∀ acc,
             (if negb (excl_t (child p e.1) e.2) && is_dir e.2
              then _find_elems_rec excl_t excl_r (child p e.1) e.2 acc
              else Ok acc)
             = (if negb (excl_t (child p e'.1) e'.2) && is_dir e'.2
                then _find_elems_rec excl_t excl_r (child p e'.1) e'.2 acc
                else Ok acc))
          cs cs' →
  ∀ acc,
  fold_result
    (λ acc e, if negb (excl_t (child p e.1) e.2) && is_dir e.2
              then _find_elems_rec excl_t excl_r (child p e.1) e.2 acc
              else Ok acc) cs acc
  = fold_result
      (λ acc e, if negb (excl_t (child p e.1) e.2) && is_dir e.2
                then _find_elems_rec excl_t excl_r (child p e.1) e.2 acc
                else Ok acc) cs' acc.
Proof.
  induction 1 as [|e e' cs cs' Hstep _ IH]; intros acc; [done|].
  cbn [fold_result]. rewrite Hstep.
  destruct (if negb (excl_t (child p e'.1) e'.2) && is_dir e'.2
            then _find_elems_rec excl_t excl_r (child p e'.1) e'.2 acc
            else Ok acc); cbn [rbind]; [apply IH|done].
Qed.

Lemma replace_child_Forall2 (R : str * node → str * node → Prop) nm f cs c :
  (∀ e, R e e) → lookup_child nm cs = Some c → R (nm, c) (nm, f c) →
  Forall2 R cs (replace_child nm f cs).
Proof.
  intros Hrefl Hl HR. unfold lookup_child in Hl.
  induction cs as [|[nm' c'] cs IH]; [done|].
  cbn [List.find replace_child fst snd] in Hl |- *.
  destruct (bool_decide (nm' = nm)) eqn:Hnm.
  - apply bool_decide_eq_true in Hnm as ->. simpl in Hl.
    injection Hl as ->. constructor; [done|].
    apply Forall_Forall2_diag, Forall_forall. by intros.
  - constructor; [done|]. by apply IH.
Qed.

Lemma replace_at_kind ns n m n' :
  ns ≠ [] → resolve n ns = Some m →
  is_dir (replace_at n ns n') = is_dir n
  ∧ is_file (replace_at n ns n') = is_file n.
Proof. intros Hne Hr. destruct ns; [done|]. by destruct n. Qed.

(** What a directory that the traversal filter excludes holds, and whether
    it can be listed, changes nothing. *)
Lemma find_elems_rec_replace ns :
  ∀ n p acc l cs l' cs',
  ns ≠ [] → resolve n ns = Some (Dir l cs) →
  excl_t (descend p ns) (Dir l cs) = true →
  _find_elems_rec excl_t excl_r p (replace_at n ns (Dir l' cs')) acc
  = _find_elems_rec excl_t excl_r p n acc.
Proof.
  induction ns as [|nm ns IH]; intros n p acc l cs l' cs' Hne Hr Hex; [done|].
  destruct n as [|lt cst|]; [done| |done].
  cbn [resolve] in Hr. cbn [replace_at].
  destruct (lookup_child nm cst) as [c|] eqn:Hl; [|done].
  destruct lt; [|done]. rewrite !find_elems_rec_fold.
  rewrite descend_cons in Hex.
  (* the entry that changes keeps its kind and gives the same step *)
  assert (Hc : (is_dir c = is_dir (replace_at c ns (Dir l' cs'))
                ∧ is_file c = is_file (replace_at c ns (Dir l' cs')))
               ∧ ∀ acc,
    (if negb (excl_t (child p nm) c) && is_dir c
     then _find_elems_rec excl_t excl_r (child p nm) c acc else Ok acc)
    = (if negb (excl_t (child p nm) (replace_at c ns (Dir l' cs')))
          && is_dir (replace_at c ns (Dir l' cs'))
       then _find_elems_rec excl_t excl_r (child p nm)
              (replace_at c ns (Dir l' cs')) acc
       else Ok acc)).
  { destruct ns as [|nm' ns'].
    - cbn [resolve] in Hr. injection Hr as ->. rewrite descend_nil in Hex.
      cbn [replace_at]. split; [done|]. intros acc'.
      rewrite Hex, (excl_t_kind (child p nm) (Dir l' cs') (Dir l cs)), Hex;
        done.
    - destruct (replace_at_kind (nm' :: ns') c (Dir l cs) (Dir l' cs'))
        as [Hd Hf]; [done|done|].
      split; [done|]. intros acc'.
      rewrite (excl_t_kind _ _ c Hd Hf), Hd.
      by rewrite (IH c (child p nm) acc' l cs l' cs'). }
  destruct Hc as [[Hd Hf] Hstep].
  rewrite (kept_paths_congr p
             (replace_child nm (λ c0, replace_at c0 ns (Dir l' cs')) cst) cst).
  - apply fold_children_step_congr. apply Forall2_flip.
    apply (replace_child_Forall2 _ nm _ cst c); [done|done|].
    intros acc'. cbn [fst snd flip]. by rewrite Hstep.
  - apply Forall2_flip.
    by apply (replace_child_Forall2 _ nm _ cst c).
Qed.

End reordering.

(** X6. The order in which directories list their entries, at any depth,
    changes nothing: on a tree and on the same tree with entries reordered,
    each collection gives the same set, or raises the same exception. *)
Theorem gathered_sets_ignore_listing_order
    (root : Path) (tree tree' : node) (excluded_files excluded_dirs : gset str) :
  reordered tree tree' →
  gather_asset_paths root tree excluded_files excluded_dirs
  = gather_asset_paths root tree' excluded_files excluded_dirs
  ∧ gather_metafile_paths root tree excluded_dirs
    = gather_metafile_paths root tree' excluded_dirs.
Proof.
  intros Hr. split; apply find_elems_rec_reordered; try done.
  - intros p n n' Hd _. unfold asset_is_excluded. by rewrite Hd.
  - intros p n n' _ Hf. unfold metafile_is_excluded. by rewrite Hf.
Qed.

Lemma gathered_sets_ignore_listing_order_witness :
  reordered tree_build tree_reordered
  ∧ gather_asset_paths root_dir tree_build ∅ ∅
    = gather_asset_paths root_dir tree_reordered ∅ ∅
  ∧ gather_metafile_paths root_dir tree_build ∅
    = gather_metafile_paths root_dir tree_reordered ∅.
Proof.
  assert (H1 : reordered tree_build tree_reordered).
  { eapply reordered_trans.
    - apply reordered_here. apply perm_swap.
    - apply (reordered_below true [(lit "a.txt", File)] (lit "build")
               _ _ []).
      apply reordered_here. apply perm_swap. }
  split; [exact H1|].
  exact (gathered_sets_ignore_listing_order root_dir _ _ ∅ ∅ H1).
Defined.

(** ** Excluded directories *)

(** C4, as amended. For every root, tree and exclusion sets, and every
    directory found strictly below the root, at any depth, whose name is in
    [excluded_dirs]: no path equal to that directory or beneath it is in
    the asset set or in the metafile set, and neither traversal descends
    into it: whatever the directory holds, and whether or not it can be
    listed, both collections return the same sets. The root itself is
    traversed whatever its name. *)
Theorem excluded_dirs_contribute_nothing
    (root : Path) (tree : node) (excluded_files excluded_dirs : gset str)
    (A M : gset Path) (ns ks : list str) (l : bool) (cs : list (str * node)) :
  distinct_names tree = true →
  gather_asset_paths root tree excluded_files excluded_dirs = Ok A →
  gather_metafile_paths root tree excluded_dirs = Ok M →
  ns ≠ [] → resolve tree ns = Some (Dir l cs) →
  name (descend root ns) ∈ excluded_dirs →
  (descend root (ns ++ ks) ∉ A) ∧ (descend root (ns ++ ks) ∉ M)
  ∧ ∀ l' cs',
      gather_asset_paths root (replace_at tree ns (Dir l' cs'))
        excluded_files excluded_dirs = Ok A
      ∧ gather_metafile_paths root (replace_at tree ns (Dir l' cs'))
          excluded_dirs = Ok M.
Proof.
  intros Hdn HA HM Hne Hres Hin.
  assert (HxA : asset_is_excluded excluded_files excluded_dirs
                  (descend root ns) (Dir l cs) = true).
  { unfold asset_is_excluded. simpl. by rewrite bool_decide_true. }
  assert (HxM : metafile_is_excluded excluded_dirs
                  (descend root ns) (Dir l cs) = true).
  { unfold metafile_is_excluded. simpl. by rewrite bool_decide_true. }
  split_and!.
  - intros (ns' & m & Hl & Heq)%(gather_asset_paths_listed _ _ _ _ _ HA).
    apply descend_inj in Heq as <-.
    apply listed_walk_to in Hl as [_ Had]; [|done].
    by rewrite (walk_to_blocked _ _ _ _ _ (Dir l cs)) in Had.
  - intros (ns' & m & Hl & Heq & _)%(gather_metafile_paths_listed _ _ _ _ HM).
    apply descend_inj in Heq as <-.
    apply listed_walk_to in Hl as [_ Had]; [|done].
    by rewrite (walk_to_blocked _ _ _ _ _ (Dir l cs)) in Had.
  - intros l' cs'. split.
    + rewrite <- HA. unfold gather_asset_paths, _find_elems. cbv zeta.
      apply (find_elems_rec_replace _ _) with (l := l) (cs := cs);
        [|by intros|done..].
      intros p n n' Hd _. unfold asset_is_excluded. by rewrite Hd.
    + rewrite <- HM. unfold gather_metafile_paths, _find_elems. cbv zeta.
      apply (find_elems_rec_replace _ _) with (l := l) (cs := cs);
        [| |done..].
      * intros p n n' _ Hf. unfold metafile_is_excluded. by rewrite Hf.
      * intros p n n' Hd _. unfold _is_not_metafile. by rewrite Hd.
Qed.

Lemma excluded_dirs_contribute_nothing_witness :
  ∃ A M,
    gather_asset_paths root_dir tree_build ∅ {[ lit "build" ]} = Ok A
    ∧ gather_metafile_paths root_dir tree_build {[ lit "build" ]} = Ok M
    ∧ (descend root_dir [lit "a.txt"] ∈ A)
    ∧ (descend root_dir ([lit "build"] ++ [lit "d.txt.meta"]) ∉ A)
    ∧ (descend root_dir ([lit "build"] ++ [lit "d.txt.meta"]) ∉ M)
    ∧ gather_asset_paths root_dir
        (replace_at tree_build [lit "build"] (Dir false []))
        ∅ {[ lit "build" ]} = Ok A.
Proof.
  set (root := root_dir). set (tree := tree_build).
  set (ed := ({[ lit "build" ]} : gset str)). eexists. eexists.
  split; [reflexivity|]. split; [reflexivity|]. split; [by_evaluation|].
  assert (H1 : distinct_names tree = true) by reflexivity.
  assert (H2 : [lit "build"] ≠ []) by discriminate.
  assert (H3 : name (descend root [lit "build"]) ∈ ed) by by_evaluation.
  pose proof (excluded_dirs_contribute_nothing root tree ∅ ed _ _
                [lit "build"] [lit "d.txt.meta"] _ _
                H1 eq_refl eq_refl H2 eq_refl H3) as (Ha & Hm & Hrep).
  split; [exact Ha|]. split; [exact Hm|].
  exact (proj1 (Hrep false [])).
Defined.

(** C4 as stated fails at the root: a root directory whose own name is in
    [excluded_dirs] is traversed all the same, and the file in it is
    collected. *)
Lemma excluded_root_is_traversed :
  ∃ A, gather_asset_paths root_build tree_single ∅ {[ lit "build" ]} = Ok A
       ∧ (name root_build ∈ ({[ lit "build" ]} : gset str))
       ∧ resolve tree_single [] = Some tree_single
       ∧ is_dir tree_single = true
       ∧ (descend root_build ([] ++ [lit "a.txt"]) ∈ A).
Proof.
  eexists. split; [reflexivity|].
  split; [by_evaluation|]. split; [reflexivity|]. split; [reflexivity|].
  by_evaluation.
Qed.

(** ** How the two checks compose *)

Lemma is_dangling_metafile_expected m (assets : gset Path) :
  name m ≠ [] →
  is_dangling_metafile m assets
  = Ok (bool_decide (expected_asset m ∉ assets)).
Proof.
  intros Hne. unfold is_dangling_metafile.
  assert (Hw : with_suffix m [] = Ok (expected_asset m)).
  { unfold with_suffix, expected_asset. simpl.
    rewrite (bool_decide_false _ Hne). do 2 f_equal.
    case_bool_decide as Hs; rewrite app_nil_r; [|done].
    rewrite Hs. simpl. by rewrite Nat.sub_0_r, firstn_all. }
  by rewrite Hw.
Qed.



Lemma is_dangling_of_append_meta p (assets : gset Path) :
  name p ≠ [] →
  is_dangling_metafile (append_meta p) assets = Ok (bool_decide (p ∉ assets)).
Proof.
  intros Hne. unfold is_dangling_metafile.
  rewrite (with_suffix_strip _ (name p)); [|done|].
  - assert (replace_name (append_meta p) (name p) = p) as ->; [|done].
    unfold append_meta. by rewrite replace_name_twice, replace_name_self.
  - unfold append_meta. by rewrite replace_name_name.
Qed.

(** X8. The metafile that [is_missing_metafile] expects for a path is
    dangling exactly when that path is not among the assets: for every
    path [p] with a name, [is_dangling_metafile] on [p] with [.meta]
    appended returns true if and only if [p] is not in [assets]. *)
Theorem expected_metafile_dangles_iff_no_asset
    (p : Path) (assets : gset Path) :
  name p ≠ [] →
  ∃ b, is_dangling_metafile (append_meta p) assets = Ok b
       ∧ (b = true ↔ p ∉ assets).
Proof.
  intros Hne. exists (bool_decide (p ∉ assets)).
  split; [by apply is_dangling_of_append_meta|apply bool_decide_eq_true].
Qed.

Lemma expected_metafile_dangles_iff_no_asset_witness :
  name (descend root_dir [lit "a.txt"]) ≠ []
  ∧ ∃ b, is_dangling_metafile (append_meta (descend root_dir [lit "a.txt"]))
                              {[ descend root_dir [lit "a.txt"] ]} = Ok b
         ∧ (b = true ↔
            descend root_dir [lit "a.txt"]
              ∉ ({[ descend root_dir [lit "a.txt"] ]} : gset Path)).
Proof.
  assert (H1 : name (descend root_dir [lit "a.txt"]) ≠ []) by by_evaluation.
  split; [exact H1|].
  exact (expected_metafile_dangles_iff_no_asset _ _ H1).
Defined.

(** X9. The asset that [is_dangling_metafile] expects for a metafile lacks
    its metafile exactly when that metafile is not collected: for every
    path [m] with the suffix [.meta] (and no separator in its name),
    [is_missing_metafile] on [m] without the suffix returns true if and
    only if [m] is not in [metafiles]. *)
Theorem expected_asset_misses_iff_no_metafile
    (m : Path) (metafiles : gset Path) :
  suffix m = lit ".meta" → sep ∉ name m →
  ∃ stem, name m = stem ++ lit ".meta"
          ∧ ∃ b, is_missing_metafile (replace_name m stem) metafiles = Ok b
                 ∧ (b = true ↔ m ∉ metafiles).
Proof.
  intros (stem & Hne & Hn)%suffix_meta_inv Hsep. exists stem.
  split; [done|]. exists (bool_decide (m ∉ metafiles)).
  split; [|apply bool_decide_eq_true].
  unfold is_missing_metafile. rewrite with_suffix_append.
  - assert (append_meta (replace_name m stem) = m) as ->; [|done].
    unfold append_meta. rewrite replace_name_twice, replace_name_name, <- Hn.
    apply replace_name_self. rewrite Hn. by destruct stem.
  - by rewrite replace_name_name.
  - rewrite replace_name_name. intros Hin. apply Hsep. rewrite Hn.
    apply elem_of_app. by left.
Qed.

Lemma expected_asset_misses_iff_no_metafile_witness :
  suffix (descend root_dir [lit "a.txt.meta"]) = lit ".meta"
  ∧ (sep ∉ name (descend root_dir [lit "a.txt.meta"]))
  ∧ ∃ stem,
      name (descend root_dir [lit "a.txt.meta"]) = stem ++ lit ".meta"
      ∧ ∃ b, is_missing_metafile
               (replace_name (descend root_dir [lit "a.txt.meta"]) stem) ∅
             = Ok b
             ∧ (b = true ↔
                descend root_dir [lit "a.txt.meta"] ∉ (∅ : gset Path)).
Proof.
  assert (H1 : suffix (descend root_dir [lit "a.txt.meta"]) = lit ".meta")
    by reflexivity.
  assert (H2 : sep ∉ name (descend root_dir [lit "a.txt.meta"]))
    by by_evaluation.
  split; [exact H1|]. split; [exact H2|].
  exact (expected_asset_misses_iff_no_metafile _ ∅ H1 H2).
Defined.

(** ** Excluded files *)

Lemma resolve_valid_names ns :
  ∀ n m, valid_names n = true → resolve n ns = Some m →
         Forall (λ s, valid_name s = true) ns.
Proof.
  induction ns as [|nm ns IH]; intros n m Hv Hres; [constructor|].
  destruct n as [|l cs|]; [done| |done]. simpl in Hres.
  destruct (lookup_child nm cs) as [c|] eqn:Hlk; [|done].
  apply lookup_child_elem, list_elem_of_In in Hlk.
  simpl in Hv. rewrite forallb_forall in Hv. apply Hv in Hlk. simpl in Hlk.
  apply andb_true_iff in Hlk as [Hnm Hc]. constructor; [done|].
  by apply (IH c m).
Qed.

(** X10. An entry whose name is in the exclusion set of its kind
    ([excluded_dirs] for a directory, [excluded_files] otherwise) is never
    an asset, at any depth. Metafile collection does not exclude the
    entry's own metafile, so that metafile, wherever it is collected, is
    found dangling. *)
Theorem excluded_entry_leaves_metafile_dangling
    (root : Path) (tree : node) (excluded_files excluded_dirs : gset str)
    (A : gset Path) (ns : list str) (m : node) :
  distinct_names tree = true → valid_names tree = true →
  gather_asset_paths root tree excluded_files excluded_dirs = Ok A →
  ns ≠ [] → resolve tree ns = Some m →
  (name (descend root ns)
     ∈ if is_dir m then excluded_dirs else excluded_files) →
  (descend root ns ∉ A)
  ∧ is_dangling_metafile (append_meta (descend root ns)) A = Ok true.
Proof.
  intros Hdn Hv HA Hne Hres Hin.
  assert (HnA : descend root ns ∉ A).
  { intros (ns' & m' & Hl & Heq)%(gather_asset_paths_listed _ _ _ _ _ HA).
    apply descend_inj in Heq as <-.
    apply listed_walk_to in Hl as [_ Had]; [|done].
    rewrite <- (app_nil_r ns) in Had.
    rewrite (walk_to_blocked _ _ _ _ _ m) in Had; [done|done|done|].
    unfold asset_is_excluded. cbv zeta. by rewrite bool_decide_true. }
  split; [done|].
  rewrite is_dangling_of_append_meta.
  - by rewrite bool_decide_true.
  - pose proof (resolve_valid_names _ _ _ Hv Hres) as Hall.
    destruct ns as [|x ns' _] using rev_ind; [done|].
    rewrite (name_descend _ _ x) by apply last_snoc.
    rewrite Forall_app, Forall_singleton in Hall. destruct Hall as [_ Hx].
    by apply valid_name_spec in Hx as [? _].
Qed.

Lemma excluded_entry_leaves_metafile_dangling_witness :
  ∃ A, gather_asset_paths root_dir tree_pair {[ lit "a.txt" ]} ∅ = Ok A
       ∧ (descend root_dir [lit "a.txt"] ∉ A)
       ∧ is_dangling_metafile (append_meta (descend root_dir [lit "a.txt"])) A
         = Ok true.
Proof.
  eexists. split; [reflexivity|].
  assert (H1 : distinct_names tree_pair = true) by reflexivity.
  assert (H2 : valid_names tree_pair = true) by reflexivity.
  assert (H3 : [lit "a.txt"] ≠ []) by discriminate.
  assert (H4 : name (descend root_dir [lit "a.txt"])
               ∈ ({[ lit "a.txt" ]} : gset str)) by by_evaluation.
  exact (excluded_entry_leaves_metafile_dangling root_dir tree_pair
           {[ lit "a.txt" ]} ∅ _ [lit "a.txt"] File
           H1 H2 eq_refl H3 eq_refl H4).
Defined.

(** ** What an action prints *)

Lemma accepts_app env printed l1 l2 :
  accepts env printed (l1 ++ l2)
  = accepts env printed l1 && accepts env (printed ++ l1) l2.
Proof.
  revert printed. induction l1 as [|l l1 IH]; intros printed; simpl.
  - by rewrite app_nil_r.
  - destruct (stdout_error env printed l); [done|].
    by rewrite IH, <- app_assoc.
Qed.

Lemma writes_eq {A} env (m : IO A) w L L' n n' a :
  writes env m w L n a → L = L' → n = n' → writes env m w L' n' a.
Proof. by intros H <- <-. Qed.

Lemma writes_ret {A} env (a : A) w : writes env (mret a) w [] 0 a.
Proof.
  unfold writes. simpl. destruct w. unfold mret, IO_ret, ret. simpl.
  by rewrite app_nil_r, Nat.add_0_r.
Qed.

Lemma writes_lift {A} env (r : result A) a w :
  r = Ok a → writes env (lift r) w [] 0 a.
Proof. intros ->. apply (writes_ret env a w). Qed.

Lemma writes_print env line w : writes env (print env line) w [line] 0 tt.
Proof.
  unfold writes, print. simpl.
  destruct (stdout_error env (stdout w) line); [by eauto|].
  by rewrite Nat.add_0_r.
Qed.

Lemma writes_datetime_now env w :
  writes env (datetime_now env) w [] 1 (clock env (clock_reads w)).
Proof.
  unfold writes, datetime_now. simpl. by rewrite app_nil_r, Nat.add_1_r.
Qed.

Lemma writes_bind {A B} env (m : IO A) (k : A → IO B) w L1 L2 n1 n2 a b :
  writes env m w L1 n1 a →
  writes env (k a) (mkWorld (stdout w ++ L1) (clock_reads w + n1)) L2 n2 b →
  writes env (m ≫= k) w (L1 ++ L2) (n1 + n2) b.
Proof.
  unfold writes. rewrite accepts_app. cbn [stdout clock_reads].
  unfold mbind, IO_bind, bind. intros H1 H2.
  destruct (accepts env (stdout w) L1); cbn [andb].
  - rewrite H1. destruct (accepts env (stdout w ++ L1) L2); [|done].
    by rewrite H2, <- app_assoc, Nat.add_assoc.
  - destruct H1 as (w' & e & ->). by eauto.
Qed.

(** A [with] statement: the lines of [__enter__], of the body and of
    [__exit__]; an exception of the body still leaves the statement when
    [__exit__] has run. *)
Lemma writes_with_cm {T A} env (enter : IO T) (exit : IO unit)
    (body : T → IO A) w L0 L L1 n0 n n1 x a :
  writes env enter w L0 n0 x →
  writes env (body x) (mkWorld (stdout w ++ L0) (clock_reads w + n0)) L n a →
  writes env exit
    (mkWorld ((stdout w ++ L0) ++ L) (clock_reads w + n0 + n)) L1 n1 tt →
  writes env (with_cm enter exit body) w (L0 ++ L ++ L1) (n0 + n + n1) a.
Proof.
  unfold writes. rewrite !accepts_app. cbn [stdout clock_reads].
  unfold with_cm. intros H0 H1 H2.
  destruct (accepts env (stdout w) L0); cbn [andb].
  - rewrite H0. destruct (accepts env (stdout w ++ L0) L); cbn [andb].
    + rewrite H1. rewrite <- (app_assoc (stdout w) L0 L) in H2 |- *.
      destruct (accepts env (stdout w ++ L0 ++ L) L1).
      * rewrite H2. by rewrite <- !app_assoc, !Nat.add_assoc.
      * destruct H2 as (w' & e & ->). by eauto.
    + destruct H1 as (w' & e & ->). destruct (exit w') as [w3 [[]|e']];
        by eauto.
  - destruct H0 as (w' & e & ->). by eauto.
Qed.

Lemma writes_suite {A} env (s : TestSuite.t) (f : IO A) w L n a :
  writes env f
    (mkWorld (stdout w ++ [suite_started_line (TestSuite.name s)])
             (clock_reads w)) L n a →
  writes env (TestSuite.decorate env s f) w
    ([suite_started_line (TestSuite.name s)] ++ L
       ++ [suite_finished_line (TestSuite.name s)]) n a.
Proof.
  intros Hf. unfold TestSuite.decorate.
  eapply writes_eq;
    [eapply (writes_with_cm env _ _ _ w
               [suite_started_line (TestSuite.name s)] L
               [suite_finished_line (TestSuite.name s)] 0 n 0 s a)
    |done|lia].
  - unfold TestSuite.__enter__.
    apply (writes_bind env _ _ w [_] [] 0 0 tt s); [apply writes_print|].
    apply writes_ret.
  - by rewrite Nat.add_0_r.
  - apply writes_print.
Qed.

Lemma writes_test {A} env (t : Test.t) (body : Test.t → IO A) w L a :
  writes env (body t)
    (mkWorld (stdout w ++ [started_line (Test.name t)]) (clock_reads w))
    L 0 a →
  writes env (Test.scope env t body) w
    ([started_line (Test.name t)] ++ L
       ++ [finished_line env (Test.name t)
             (clock env (clock_reads w) - Test._start_time t)]) 1 a.
Proof.
  intros Hb. unfold Test.scope.
  eapply writes_eq;
    [eapply (writes_with_cm env _ _ _ w
               [started_line (Test.name t)] L
               [finished_line env (Test.name t)
                  (clock env (clock_reads w) - Test._start_time t)]
               0 0 1 t a)
    |done|lia].
  - unfold Test.__enter__.
    apply (writes_bind env _ _ w [_] [] 0 0 tt t); [apply writes_print|].
    apply writes_ret.
  - by rewrite Nat.add_0_r.
  - unfold Test.__exit__. rewrite !Nat.add_0_r.
    apply (writes_bind env _ _ _ [] [_] 1 0
             (clock env (clock_reads w)) tt);
      [apply (writes_datetime_now env (mkWorld _ _))|].
    apply writes_print.
Qed.

Section streams.

Variable env : Env.
Variable class_start_time : Z.

Lemma writes_missing_body metafiles p w :
  name p ≠ [] → sep ∉ name p →
  writes env (missing_body env class_start_time metafiles p) w
    (test_events env class_start_time (clock_reads w) (to_str p)
       (missing_failure metafiles p)) 1 tt.
Proof.
  intros Hne Hsep. unfold missing_body, test_events.
  apply (writes_test env (Test.new class_start_time (to_str p))).
  unfold is_missing_metafile, missing_failure.
  rewrite with_suffix_append by done. cbn [rbind].
  destruct (bool_decide (append_meta p ∉ metafiles)).
  - apply (writes_bind env _ _ _ [] [_] 0 0 true tt); [by apply writes_lift|].
    apply writes_print.
  - apply (writes_bind env _ _ _ [] [] 0 0 false tt); [by apply writes_lift|].
    apply writes_ret.
Qed.

Lemma writes_dangling_body assets m w :
  name m ≠ [] →
  writes env (dangling_body env class_start_time assets m) w
    (test_events env class_start_time (clock_reads w) (to_str m)
       (dangling_failure assets m)) 1 tt.
Proof.
  intros Hne. unfold dangling_body, test_events.
  apply (writes_test env (Test.new class_start_time (to_str m))).
  unfold dangling_failure.
  rewrite is_dangling_metafile_expected by done.
  destruct (bool_decide (expected_asset m ∉ assets)).
  - apply (writes_bind env _ _ _ [] [_] 0 0 true tt); [by apply writes_lift|].
    apply writes_print.
  - apply (writes_bind env _ _ _ [] [] 0 0 false tt); [by apply writes_lift|].
    apply writes_ret.
Qed.

Lemma writes_for_each (body : Path → IO unit)
    (failure : Path → option (str * str)) (ps : list Path) :
  (∀ p w, p ∈ ps →
     writes env (body p) w
       (test_events env class_start_time (clock_reads w) (to_str p)
          (failure p)) 1 tt) →
  ∀ w, writes env (for_each ps body) w
         (suite_events env class_start_time failure (clock_reads w) ps)
         (length ps) tt.
Proof.
  induction ps as [|p ps IH]; intros Hb w.
  - apply (writes_ret env tt w).
  - cbn [for_each suite_events length].
    apply (writes_bind env (body p) _ w _ _ 1 (length ps) tt tt).
    + apply Hb. by left.
    + eapply writes_eq; [apply IH|..].
      * intros q w' Hq. apply Hb. by right.
      * cbn [clock_reads]. by rewrite Nat.add_1_r.
      * done.
Qed.

Lemma writes_verify_missing_metafiles (assets metafiles : gset Path) w :
  (∀ p, p ∈ set_order env assets → name p ≠ [] ∧ sep ∉ name p) →
  writes env (verify_missing_metafiles env class_start_time assets metafiles)
    w
    ([suite_started_line (lit "missing_metafiles")]
       ++ suite_events env class_start_time (missing_failure metafiles)
            (clock_reads w) (set_order env assets)
       ++ [suite_finished_line (lit "missing_metafiles")])
    (length (set_order env assets)) tt.
Proof.
  intros Hnames. unfold verify_missing_metafiles.
  apply (writes_suite env (TestSuite.mk (lit "missing_metafiles"))).
  refine (writes_for_each _ (missing_failure metafiles) _ _ (mkWorld _ _)).
  intros p w' Hp. destruct (Hnames p Hp). by apply writes_missing_body.
Qed.

Lemma writes_verify_dangling_metafiles (assets metafiles : gset Path) w :
  (∀ m, m ∈ set_order env metafiles → name m ≠ []) →
  writes env (verify_dangling_metafiles env class_start_time assets metafiles)
    w
    ([suite_started_line (lit "dangling_metafiles")]
       ++ suite_events env class_start_time (dangling_failure assets)
            (clock_reads w) (set_order env metafiles)
       ++ [suite_finished_line (lit "dangling_metafiles")])
    (length (set_order env metafiles)) tt.
Proof.
  intros Hnames. unfold verify_dangling_metafiles.
  apply (writes_suite env (TestSuite.mk (lit "dangling_metafiles"))).
  refine (writes_for_each _ (dangling_failure assets) _ _ (mkWorld _ _)).
  intros p w' Hp. by apply writes_dangling_body, Hnames.
Qed.

End streams.

Lemma collected_names root tree ef ed A M :
  valid_names tree = true →
  gather_asset_paths root tree ef ed = Ok A →
  gather_metafile_paths root tree ed = Ok M →
  (∀ p, p ∈ A → name p ≠ [] ∧ sep ∉ name p)
  ∧ (∀ m, m ∈ M → name m ≠ []).
Proof.
  intros Hv HA HM. split.
  - intros p (ns & m & Hl & ->)%(gather_asset_paths_listed _ _ _ _ _ HA).
    by eapply listed_name_valid.
  - intros p (ns & m & Hl & -> & _)%(gather_metafile_paths_listed _ _ _ _ HM).
    by eapply listed_name_valid.
Qed.

Lemma order_ok_elem env (s : gset Path) p :
  order_ok env → p ∈ set_order env s ↔ p ∈ s.
Proof. intros Ho. by rewrite (Ho s), elem_of_elements. Qed.

Lemma order_ok_length env (s : gset Path) :
  order_ok env → length (set_order env s) = size s.
Proof. intros Ho. by rewrite (Ho s). Qed.

Lemma bind_lift_ok {A B} (r : result A) a (k : A → IO B) w :
  r = Ok a → (lift r ≫= k) w = k a w.
Proof. by intros ->. Qed.

Lemma bind_lift_raise {A B} (r : result A) e (k : A → IO B) w :
  r = Raise e → (lift r ≫= k) w = (w, Raise e).
Proof. by intros ->. Qed.

Lemma run_main env root tree ef ed :
  run env root tree ef ed
  = main env (clock env 0%nat) root tree ef ed (mkWorld [] 1).
Proof. reflexivity. Qed.

(** The whole run, once both sets are collected from valid names: the
    events are printed and the script ends normally, or standard output
    refuses one of them and an exception leaves the script. *)
Lemma run_outcome env root tree ef ed A M :
  valid_names tree = true → order_ok env →
  gather_asset_paths root tree ef ed = Ok A →
  gather_metafile_paths root tree ed = Ok M →
  if accepts env [] (run_stream env A M)
  then run env root tree ef ed
       = (mkWorld (run_stream env A M) (1 + size A + size M), Ok tt)
  else ∃ w e, run env root tree ef ed = (w, Raise e).
Proof.
  intros Hv Ho HA HM.
  destruct (collected_names _ _ _ _ _ _ Hv HA HM) as [HnA HnM].
  rewrite run_main. unfold main.
  rewrite (bind_lift_ok _ A) by done. rewrite (bind_lift_ok _ M) by done.
  pose proof (writes_bind env
    (verify_missing_metafiles env (clock env 0%nat) A M)
    (λ _, verify_dangling_metafiles env (clock env 0%nat) A M)
    (mkWorld [] 1) _ _ _ _ tt tt
    (writes_verify_missing_metafiles env (clock env 0%nat) A M _
       (λ p Hp, HnA p (proj1 (order_ok_elem env A p Ho) Hp)))
    (writes_verify_dangling_metafiles env (clock env 0%nat) A M _
       (λ p Hp, HnM p (proj1 (order_ok_elem env M p Ho) Hp)))) as Hw.
  unfold writes in Hw. cbn [stdout clock_reads] in Hw.
  rewrite !order_ok_length in Hw by done.
  unfold run_stream.
  rewrite <- !app_assoc in Hw. cbn [app] in Hw |- *.
  destruct (accepts env [] _); [|done].
  rewrite Hw. by rewrite Nat.add_assoc.
Qed.

(** ** Exit status *)

(** C9, as amended. For every run on a tree of valid file names, sets
    being iterated over each element once: when both traversals complete
    and standard output takes every line of the report, the script ends
    normally, whatever was reported, and the process exits with status 0
    (120 when the lines cannot be flushed at the end); when both
    traversals complete and standard output refuses a line of the report,
    an exception leaves the script and the status is not 0; when a
    traversal raises, the error leaves the script uncaught, before
    anything is printed, and the status is not 0. *)
Theorem exit_status_of_run
    (env : Env) (root : Path) (tree : node)
    (excluded_files excluded_dirs : gset str) :
  valid_names tree = true → order_ok env →
  (∀ A M,
     gather_asset_paths root tree excluded_files excluded_dirs = Ok A →
     gather_metafile_paths root tree excluded_dirs = Ok M →
     if accepts env [] (run_stream env A M)
     then (run env root tree excluded_files excluded_dirs).2 = Ok tt
          ∧ exit_status env (run env root tree excluded_files excluded_dirs)
            = (if flush_fails env (run_stream env A M) then 120 else 0)
     else (∃ e, (run env root tree excluded_files excluded_dirs).2 = Raise e)
          ∧ exit_status env (run env root tree excluded_files excluded_dirs)
            ≠ 0)
  ∧ (∀ e,
       gather_asset_paths root tree excluded_files excluded_dirs = Raise e
       ∨ (∃ A, gather_asset_paths root tree excluded_files excluded_dirs = Ok A)
         ∧ gather_metafile_paths root tree excluded_dirs = Raise e →
       (run env root tree excluded_files excluded_dirs).2 = Raise e
       ∧ exit_status env (run env root tree excluded_files excluded_dirs) ≠ 0
       ∧ stdout (run env root tree excluded_files excluded_dirs).1 = []).
Proof.
  intros Hv Ho. split.
  - intros A M HA HM.
    pose proof (run_outcome env root tree _ _ A M Hv Ho HA HM) as Hrun.
    destruct (accepts env [] (run_stream env A M)).
    + by rewrite Hrun.
    + destruct Hrun as (w & e & ->). split; [by eauto|].
      unfold exit_status. cbn [fst snd]. by destruct (flush_fails env _).
  - intros e [HA|[[A HA] HM]]; rewrite run_main; unfold main.
    + rewrite (bind_lift_raise _ e) by done. split_and!; [done| |done].
      unfold exit_status. cbn [fst snd]. by destruct (flush_fails env _).
    + rewrite (bind_lift_ok _ A) by done.
      rewrite (bind_lift_raise _ e) by done. split_and!; [done| |done].
      unfold exit_status. cbn [fst snd]. by destruct (flush_fails env _).
Qed.

Lemma exit_status_of_run_witness :
  valid_names tree_failures = true ∧ valid_names tree_locked = true
  ∧ order_ok env_steady
  ∧ order_ok env_full
  ∧ exit_status env_steady (run env_steady root_dir tree_failures ∅ ∅) = 0
  ∧ exit_status env_full (run env_full root_dir tree_failures ∅ ∅) = 120
  ∧ exit_status env_steady (run env_steady root_dir tree_locked ∅ ∅) ≠ 0.
Proof.
  set (root := root_dir).
  set (tree := tree_failures). set (locked := tree_locked).
  assert (H1 : valid_names tree = true) by reflexivity.
  assert (H2 : valid_names locked = true) by reflexivity.
  assert (H3 : order_ok env_steady) by (intros s; reflexivity).
  assert (H4 : order_ok env_full) by (intros s; reflexivity).
  split; [exact H1|]. split; [exact H2|]. split; [exact H3|].
  split; [exact H4|]. split; [|split].
  - destruct (exit_status_of_run env_steady root tree ∅ ∅ H1 H3) as [Hok _].
    pose proof (Hok _ _ eq_refl eq_refl) as Hrun.
    match type of Hrun with
    | if ?c then _ else _ =>
        replace c with true in Hrun by (symmetry; vm_compute; reflexivity)
    end.
    exact (proj2 Hrun).
  - destruct (exit_status_of_run env_full root tree ∅ ∅ H1 H4) as [Hok _].
    pose proof (Hok _ _ eq_refl eq_refl) as Hrun.
    match type of Hrun with
    | if ?c then _ else _ =>
        replace c with true in Hrun by (symmetry; vm_compute; reflexivity)
    end.
    refine (eq_trans (proj2 Hrun) _). vm_compute. reflexivity.
  - destruct (exit_status_of_run env_steady root locked ∅ ∅ H2 H3)
      as [_ Herr].
    exact (proj1 (proj2 (Herr PermissionError (or_introl eq_refl)))).
Defined.

(** C9 as stated fails: on a tree of one file whose name is not UTF-8,
    both traversals complete, and the run ends with [UnicodeEncodeError]
    and status 1: the line that starts the first test cannot be printed. *)
Lemma undecodable_name_stops_run :
  valid_names tree_undecodable = true
  ∧ (∃ A M, gather_asset_paths root_dir tree_undecodable ∅ ∅ = Ok A
            ∧ gather_metafile_paths root_dir tree_undecodable ∅ = Ok M)
  ∧ (run env_steady root_dir tree_undecodable ∅ ∅).2
    = Raise UnicodeEncodeError
  ∧ exit_status env_steady (run env_steady root_dir tree_undecodable ∅ ∅)
    = 1
  ∧ stdout (run env_steady root_dir tree_undecodable ∅ ∅).1
    = [ lit "##teamcity[testSuiteStarted name='missing_metafiles']";
        lit "##teamcity[testSuiteFinished name='missing_metafiles']" ].
Proof.
  split; [reflexivity|]. split; [eexists; eexists; split; reflexivity|].
  split; [vm_compute; reflexivity|]. split; vm_compute; reflexivity.
Qed.

(** ** Test durations *)

(** C6, at an input on which the code breaks it. Entering a [Test] scope
    reads no clock and leaves [_start_time] as it is; the start time of every
    instance is the one value computed when the class was defined. With the
    class defined at time 0 and the two tests of a run finishing 5000 ms and
    5002 ms later, the second test, entered after the first was finished,
    reports a duration of 5002 ms. *)
Theorem test_duration_counts_from_class_definition :
  (∀ (env : Env) (t : Test.t) (w : World),
     ∃ line, Test.__enter__ env t w
             = match stdout_error env (stdout w) line with
               | None => (mkWorld (stdout w ++ [line]) (clock_reads w), Ok t)
               | Some e => (w, Raise e)
               end)
  ∧ (∀ t0 name name', Test._start_time (Test.new t0 name)
                      = Test._start_time (Test.new t0 name'))
  ∧ stdout (run env_late root_dir tree_pair ∅ ∅).1
     = [ lit "##teamcity[testSuiteStarted name='missing_metafiles']";
         lit "##teamcity[testStarted name='root/a.txt' captureStandardOutput='false']";
         lit "##teamcity[testFinished name='root/a.txt' duration='5000.0']";
         lit "##teamcity[testSuiteFinished name='missing_metafiles']";
         lit "##teamcity[testSuiteStarted name='dangling_metafiles']";
         lit "##teamcity[testStarted name='root/a.txt.meta' captureStandardOutput='false']";
         lit "##teamcity[testFinished name='root/a.txt.meta' duration='5002.0']";
         lit "##teamcity[testSuiteFinished name='dangling_metafiles']" ].
Proof.
  split; [|split].
  - intros env t w. exists (started_line (Test.name t)).
    unfold Test.__enter__, publish, print, started_line.
    unfold mbind, IO_bind, bind, mret, IO_ret, ret.
    by destruct (stdout_error env (stdout w) _).
  - done.
  - vm_compute. reflexivity.
Qed.

(** ** The event stream *)

(** X11. The events of a run, once both sets are collected from a tree of
    valid names and when standard output takes every line: the suite of
    missing metafiles and then the suite of dangling metafiles, each
    bracketed by its start and finish events; in a suite, for each path in
    the order in which the set is iterated, a [testStarted] event, a
    [testFailed] event exactly when the check finds a failure, and a
    [testFinished] event; the clock is read once for the class and once at
    the end of each test, and the script ends normally. *)
Theorem run_event_stream
    (env : Env) (root : Path) (tree : node)
    (excluded_files excluded_dirs : gset str) (A M : gset Path) :
  valid_names tree = true → order_ok env →
  gather_asset_paths root tree excluded_files excluded_dirs = Ok A →
  gather_metafile_paths root tree excluded_dirs = Ok M →
  accepts env [] (run_stream env A M) = true →
  stdout (run env root tree excluded_files excluded_dirs).1
  = [suite_started_line (lit "missing_metafiles")]
      ++ suite_events env (clock env 0%nat) (missing_failure M) 1
           (set_order env A)
      ++ [suite_finished_line (lit "missing_metafiles")]
      ++ [suite_started_line (lit "dangling_metafiles")]
      ++ suite_events env (clock env 0%nat) (dangling_failure A)
           (1 + size A) (set_order env M)
      ++ [suite_finished_line (lit "dangling_metafiles")]
  ∧ clock_reads (run env root tree excluded_files excluded_dirs).1
    = (1 + size A + size M)%nat
  ∧ (run env root tree excluded_files excluded_dirs).2 = Ok tt.
Proof.
  intros Hv Ho HA HM Hacc.
  pose proof (run_outcome env root tree _ _ A M Hv Ho HA HM) as Hrun.
  rewrite Hacc in Hrun. by rewrite Hrun.
Qed.

Lemma run_event_stream_witness :
  valid_names tree_failures = true ∧ order_ok env_steady
  ∧ stdout (run env_steady root_dir tree_failures ∅ ∅).1
    = [ lit "##teamcity[testSuiteStarted name='missing_metafiles']";
        lit "##teamcity[testStarted name='root/b.txt' captureStandardOutput='false']";
        lit "##teamcity[testFailed name='root/b.txt' message='No .metafile' details='Metafile root/b.txt.meta not found.']";
        lit "##teamcity[testFinished name='root/b.txt' duration='1.5']";
        lit "##teamcity[testSuiteFinished name='missing_metafiles']";
        lit "##teamcity[testSuiteStarted name='dangling_metafiles']";
        lit "##teamcity[testStarted name='root/c.txt.meta' captureStandardOutput='false']";
        lit "##teamcity[testFailed name='root/c.txt.meta' message='No asset' details='No file corresponding with root/c.txt.meta.']";
        lit "##teamcity[testFinished name='root/c.txt.meta' duration='3.0']";
        lit "##teamcity[testSuiteFinished name='dangling_metafiles']" ].
Proof.
  assert (H1 : valid_names tree_failures = true) by reflexivity.
  assert (H2 : order_ok env_steady) by (intros s; reflexivity).
  split; [exact H1|]. split; [exact H2|].
  pose proof (run_event_stream env_steady root_dir tree_failures ∅ ∅ _ _
                H1 H2 eq_refl eq_refl) as Hrun.
  destruct Hrun as [Hout _]; [vm_compute; reflexivity|].
  rewrite Hout. vm_compute. reflexivity.
Defined.

(** ** Counting failures *)

Lemma is_failed_event_started nm : is_failed_event (started_line nm) = false.
Proof. reflexivity. Qed.

Lemma is_failed_event_finished env nm us :
  is_failed_event (finished_line env nm us) = false.
Proof. reflexivity. Qed.

Lemma is_failed_event_failed nm message details :
  is_failed_event (failed_line nm message details) = true.
Proof. reflexivity. Qed.

Lemma failed_events_of_suite env t0 (failure : Path → option (str * str))
    (P : Path → Prop) `{!∀ p, Decision (P p)} ps :
  (∀ p, is_Some (failure p) ↔ P p) →
  ∀ k, length (List.filter is_failed_event
                 (suite_events env t0 failure k ps))
       = length (filter P ps).
Proof.
  intros HP. induction ps as [|p ps IH]; intros k; [done|].
  cbn [suite_events]. rewrite List.filter_app, length_app, IH, filter_cons.
  unfold test_events. specialize (HP p).
  destruct (failure p) as [[message details]|]; simpl.
  - rewrite decide_True by (apply HP; eauto). done.
  - rewrite decide_False; [done|]. intros [? ?]%HP. done.
Qed.

Lemma no_failed_event_of_suite env t0 (failure : Path → option (str * str))
    ps :
  ∀ k, Forall (λ line, is_failed_event line = false)
         (suite_events env t0 failure k ps)
       ↔ ∀ p, p ∈ ps → failure p = None.
Proof.
  induction ps as [|p ps IH]; intros k.
  - split; [intros _ p Hp; by apply elem_of_nil in Hp|constructor].
  - cbn [suite_events]. rewrite Forall_app, IH. unfold test_events. split.
    + intros [Hp Hps] q [->|Hq]%elem_of_cons; [|by apply Hps].
      destruct (failure p) as [[message details]|]; [|done].
      apply Forall_cons in Hp as [_ Hp]. apply Forall_cons in Hp as [Hp _].
      done.
    + intros Hall. split; [|intros q Hq; apply Hall; by right].
      rewrite (Hall p) by by left. by repeat constructor.
Qed.

Lemma size_filter_elements (P : Path → Prop) `{!∀ p, Decision (P p)}
    (X : gset Path) :
  size (filter P X) = length (filter P (elements X)).
Proof.
  unfold filter at 1, set_filter. rewrite size_list_to_set; [done|].
  apply NoDup_filter, NoDup_elements.
Qed.

Lemma missing_failure_Some (M : gset Path) p :
  is_Some (missing_failure M p) ↔ append_meta p ∉ M.
Proof.
  unfold missing_failure. case_bool_decide as H; split.
  - by intros _.
  - by eauto.
  - by intros [? ?].
  - done.
Qed.

Lemma dangling_failure_Some (A : gset Path) m :
  is_Some (dangling_failure A m) ↔ expected_asset m ∉ A.
Proof.
  unfold dangling_failure. case_bool_decide as H; split.
  - by intros _.
  - by eauto.
  - by intros [? ?].
  - done.
Qed.

(** X12. A run whose lines standard output takes reports as many failed
    tests as there are assets without their metafile plus metafiles whose
    expected asset is not collected: one [testFailed] event for each, and
    no other, in whatever order the sets are iterated. *)
Theorem failures_reported_count
    (env : Env) (root : Path) (tree : node)
    (excluded_files excluded_dirs : gset str) (A M : gset Path) :
  valid_names tree = true → order_ok env →
  gather_asset_paths root tree excluded_files excluded_dirs = Ok A →
  gather_metafile_paths root tree excluded_dirs = Ok M →
  accepts env [] (run_stream env A M) = true →
  length (List.filter is_failed_event
            (stdout (run env root tree excluded_files excluded_dirs).1))
  = (size (filter (λ p, append_meta p ∉ M) A)
     + size (filter (λ m, expected_asset m ∉ A) M))%nat.
Proof.
  intros Hv Ho HA HM Hacc.
  pose proof (run_outcome env root tree _ _ A M Hv Ho HA HM) as Hrun.
  rewrite Hacc in Hrun. rewrite Hrun. unfold run_stream.
  cbn [stdout fst]. rewrite !List.filter_app, !length_app.
  rewrite (failed_events_of_suite _ _ _ (λ p, append_meta p ∉ M))
    by apply missing_failure_Some.
  rewrite (failed_events_of_suite _ _ _ (λ m, expected_asset m ∉ A))
    by apply dangling_failure_Some.
  rewrite !size_filter_elements, (Ho A), (Ho M). simpl. lia.
Qed.

Lemma failures_reported_count_witness :
  valid_names tree_failures = true ∧ order_ok env_steady
  ∧ length (List.filter is_failed_event
              (stdout (run env_steady root_dir tree_failures ∅ ∅).1))
    = 2%nat.
Proof.
  assert (H1 : valid_names tree_failures = true) by reflexivity.
  assert (H2 : order_ok env_steady) by (intros s; reflexivity).
  split; [exact H1|]. split; [exact H2|].
  pose proof (failures_reported_count env_steady root_dir tree_failures
                ∅ ∅ _ _ H1 H2 eq_refl eq_refl) as Hcount.
  rewrite Hcount; vm_compute; reflexivity.
Defined.

(** X13. A run whose lines standard output takes prints no [testFailed]
    event exactly when every collected asset has its metafile in the
    metafile set and the expected asset of every collected metafile is in
    the asset set. *)
Theorem no_failure_iff_consistent
    (env : Env) (root : Path) (tree : node)
    (excluded_files excluded_dirs : gset str) (A M : gset Path) :
  valid_names tree = true → order_ok env →
  gather_asset_paths root tree excluded_files excluded_dirs = Ok A →
  gather_metafile_paths root tree excluded_dirs = Ok M →
  accepts env [] (run_stream env A M) = true →
  Forall (λ line, is_failed_event line = false)
         (stdout (run env root tree excluded_files excluded_dirs).1)
  ↔ (∀ p, p ∈ A → append_meta p ∈ M)
    ∧ (∀ m, m ∈ M → expected_asset m ∈ A).
Proof.
  intros Hv Ho HA HM Hacc.
  pose proof (run_outcome env root tree _ _ A M Hv Ho HA HM) as Hrun.
  rewrite Hacc in Hrun. rewrite Hrun. unfold run_stream.
  cbn [stdout fst]. rewrite !Forall_app, !no_failed_event_of_suite.
  assert (HmA : (∀ p, p ∈ set_order env A → missing_failure M p = None)
                ↔ ∀ p, p ∈ A → append_meta p ∈ M).
  { split; intros H p Hp.
    - specialize (H p (proj2 (order_ok_elem env A p Ho) Hp)).
      unfold missing_failure in H.
      destruct (decide (append_meta p ∈ M)) as [|Hn]; [done|].
      by rewrite bool_decide_true in H.
    - specialize (H p (proj1 (order_ok_elem env A p Ho) Hp)).
      unfold missing_failure. rewrite bool_decide_false; [done|].
      by intros Hn. }
  assert (HdM : (∀ m, m ∈ set_order env M → dangling_failure A m = None)
                ↔ ∀ m, m ∈ M → expected_asset m ∈ A).
  { split; intros H p Hp.
    - specialize (H p (proj2 (order_ok_elem env M p Ho) Hp)).
      unfold dangling_failure in H.
      destruct (decide (expected_asset p ∈ A)) as [|Hn]; [done|].
      by rewrite bool_decide_true in H.
    - specialize (H p (proj1 (order_ok_elem env M p Ho) Hp)).
      unfold dangling_failure. rewrite bool_decide_false; [done|].
      by intros Hn. }
  rewrite HmA, HdM. split.
  - intros (_ & H1 & _ & _ & H2 & _). done.
  - intros [H1 H2]. split_and!; try done; by repeat constructor.
Qed.

Lemma no_failure_iff_consistent_witness :
  ∃ A M, gather_asset_paths root_dir tree_pair ∅ ∅ = Ok A
         ∧ gather_metafile_paths root_dir tree_pair ∅ = Ok M
         ∧ order_ok env_steady
         ∧ (∀ p, p ∈ A → append_meta p ∈ M)
         ∧ (∀ m, m ∈ M → expected_asset m ∈ A).
Proof.
  eexists. eexists. split; [reflexivity|]. split; [reflexivity|].
  assert (H1 : valid_names tree_pair = true) by reflexivity.
  assert (H2 : order_ok env_steady) by (intros s; reflexivity).
  split; [exact H2|].
  pose proof (no_failure_iff_consistent env_steady root_dir tree_pair ∅ ∅
                _ _ H1 H2 eq_refl eq_refl) as Hiff.
  apply (proj1 (Hiff ltac:(vm_compute; reflexivity))). by_evaluation.
Defined.

(** ** Suffixes of collected paths *)

Lemma listed_regular excl p n ns m :
  listed excl p n ns m → regular n = true → regular m = true.
Proof.
  induction 1 as [p l cs nm c Hin Hex|p l cs nm c ns m Hin Hex Hd Hl IH];
    simpl; intros Hreg; rewrite forallb_forall in Hreg;
    apply list_elem_of_In, Hreg in Hin; simpl in Hin; auto.
Qed.

(** X16. No collected asset has the suffix [.meta]; and on a tree of
    regular files and directories every collected metafile has it. *)
Theorem suffixes_of_collected_paths
    (root : Path) (tree : node) (excluded_files excluded_dirs : gset str)
    (A M : gset Path) :
  gather_asset_paths root tree excluded_files excluded_dirs = Ok A →
  gather_metafile_paths root tree excluded_dirs = Ok M →
  (∀ p, p ∈ A → suffix p ≠ lit ".meta")
  ∧ (regular tree = true → ∀ m, m ∈ M → suffix m = lit ".meta").
Proof.
  intros HA HM. split.
  - intros p (ns & m & Hl & ->)%(gather_asset_paths_listed _ _ _ _ _ HA).
    apply listed_not_excluded in Hl.
    by apply asset_is_excluded_false in Hl as [_ ?].
  - intros Hreg p
      (ns & m & Hl & -> & Hd)%(gather_metafile_paths_listed _ _ _ _ HM).
    pose proof (listed_regular _ _ _ _ _ Hl Hreg) as Hm.
    apply listed_not_excluded in Hl.
    apply metafile_is_excluded_false in Hl.
    by destruct m.
Qed.

Lemma suffixes_of_collected_paths_witness :
  ∃ A M, gather_asset_paths root_dir tree_build ∅ ∅ = Ok A
         ∧ gather_metafile_paths root_dir tree_build ∅ = Ok M
         ∧ (∀ p, p ∈ A → suffix p ≠ lit ".meta")
         ∧ (∀ m, m ∈ M → suffix m = lit ".meta").
Proof.
  eexists. eexists. split; [reflexivity|]. split; [reflexivity|].
  pose proof (suffixes_of_collected_paths root_dir tree_build ∅ ∅ _ _
                eq_refl eq_refl) as [HA HM].
  split; [exact HA|]. apply HM. reflexivity.
Defined.

(** ** Directories named like metafiles *)

(** X17. The asset traversal skips a directory whose own name has the
    suffix [.meta], while the metafile traversal enters it: every path
    below such a directory is found dangling, whatever the directory
    holds. *)
Theorem paths_below_meta_directory_dangle
    (root : Path) (tree : node) (excluded_files excluded_dirs : gset str)
    (A : gset Path) (ns ks : list str) (l : bool) (cs : list (str * node)) :
  distinct_names tree = true →
  gather_asset_paths root tree excluded_files excluded_dirs = Ok A →
  ns ≠ [] → resolve tree ns = Some (Dir l cs) →
  suffix (descend root ns) = lit ".meta" →
  ks ≠ [] → name (descend root (ns ++ ks)) ≠ [] →
  is_dangling_metafile (descend root (ns ++ ks)) A = Ok true.
Proof.
  intros Hdn HA Hne Hres Hsfx Hks Hname.
  rewrite is_dangling_metafile_expected by done.
  rewrite bool_decide_true; [done|].
  unfold expected_asset.
  set (stem := take _ _).
  assert (Heq : replace_name (descend root (ns ++ ks)) stem
                = descend root (ns ++ (removelast ks ++ [stem]))).
  { unfold replace_name, descend. simpl. f_equal.
    rewrite (app_assoc (parts root) ns ks), removelast_app by done.
    by rewrite <- !app_assoc. }
  rewrite Heq.
  intros (ns' & m & Hl & Hd)%(gather_asset_paths_listed _ _ _ _ _ HA).
  apply descend_inj in Hd as <-.
  apply listed_walk_to in Hl as [_ Had]; [|done].
  rewrite (walk_to_blocked _ _ _ _ _ (Dir l cs)) in Had; [done|done|done|].
  unfold asset_is_excluded. cbv zeta.
  rewrite (bool_decide_true (suffix _ = _)) by done. apply orb_true_r.
Qed.

Lemma paths_below_meta_directory_dangle_witness :
  ∃ A, gather_asset_paths root_dir tree_meta_dir ∅ ∅ = Ok A
       ∧ is_dangling_metafile
           (descend root_dir ([lit "d.meta"] ++ [lit "x.png.meta"])) A
         = Ok true.
Proof.
  eexists. split; [reflexivity|].
  assert (H1 : distinct_names tree_meta_dir = true) by reflexivity.
  assert (H2 : [lit "d.meta"] ≠ []) by discriminate.
  assert (H3 : [lit "x.png.meta"] ≠ []) by discriminate.
  assert (H4 : name (descend root_dir ([lit "d.meta"] ++ [lit "x.png.meta"]))
               ≠ []) by by_evaluation.
  exact (paths_below_meta_directory_dangle root_dir tree_meta_dir ∅ ∅ _
           [lit "d.meta"] [lit "x.png.meta"] _ _
           H1 eq_refl H2 eq_refl eq_refl H3 H4).
Defined.
